(** * Post Scheduler: the reminder engine of [src/pages/Home.tsx]

    A shallow embedding of the part of the [Home] component that decides
    when a reminder fires: the load effect ([loadPosts]), the save effect,
    the periodic alarm check ([checkAlarms]), the form handler
    ([handleSubmit]) and the two derived lists [upcomingPosts] and
    [pastPosts].  The older component kept beside it (the alarm loop that
    tests the [notified] flag and the tab's visibility) is embedded in
    [Module Legacy]. *)

From Stdlib Require Import ZArith NArith List Ascii String Lia Permutation Sorted.
From stdpp Require Import base decidable countable gmap sets list strings.

Local Open Scope Z_scope.

(** ** JavaScript values *)

(** A JavaScript string is a sequence of UTF-16 code units. *)
Abbreviation JsString := (list N).

(** The code units of an ASCII literal. *)
Definition js (s : string) : JsString :=
  map (fun a => N_of_ascii a) (list_ascii_of_string s).

(** [WhiteSpace] and [LineTerminator] code units, the ones
    [String.prototype.trim] strips. *)
Definition isWhiteSpace (c : N) : bool :=
  (N.eqb c 9 || N.eqb c 10 || N.eqb c 11 || N.eqb c 12 || N.eqb c 13
   || N.eqb c 32 || N.eqb c 160 || N.eqb c 5760
   || (N.leb 8192 c && N.leb c 8202)
   || N.eqb c 8232 || N.eqb c 8233 || N.eqb c 8239 || N.eqb c 8287
   || N.eqb c 12288 || N.eqb c 65279)%N.

Fixpoint trimStart (s : JsString) : JsString :=
  match s with
  | c :: s' => if isWhiteSpace c then trimStart s' else s
  | [] => []
  end.

Definition trimEnd (s : JsString) : JsString := rev (trimStart (rev s)).

(** [s.trim()] *)
Definition trim (s : JsString) : JsString := trimEnd (trimStart s).

(** Truthiness of a string that may be [undefined] or [null] ([None]):
    only a non-empty string is truthy. *)
Definition truthy (s : option JsString) : bool :=
  match s with
  | Some (_ :: _) => true
  | _ => false
  end.

(** A [time] string, by the time value [new Date(s).getTime()] gives for
    it: a number of milliseconds since the epoch, or NaN for a string that
    is not a date.  [toISOString] and [new Date] are inverse to each other
    on valid dates, so [ISO ms] stands for the string [toISOString] writes
    for [ms]. *)
Inductive TimeString :=
| ISO (ms : Z)
| NotADate.

(** ** Posts *)

(** [type Post].  A field is [None] when the property is absent
    ([undefined]).  The type declares [id], [text] and [time] as present,
    but the array read back from [localStorage] is only cast to [Post[]],
    so a record can reach the state without them. *)
Record Post := mkPost {
  id : option JsString;
  text : option JsString;
  time : option TimeString;
  notified : option bool;
  color : option JsString
}.

Global Instance TimeString_eq_dec : EqDecision TimeString.
Proof. solve_decision. Defined.

Global Instance Post_eq_dec : EqDecision Post.
Proof. solve_decision. Defined.

Definition COLORS : list JsString :=
  [ js "bg-indigo-500"; js "bg-pink-500"; js "bg-emerald-500";
    js "bg-amber-500"; js "bg-purple-500" ].

(** [new Date(post.time).getTime()]; [None] is NaN. *)
Definition getTime (post : Post) : option Z :=
  match time post with
  | Some (ISO ms) => Some ms
  | _ => None
  end.

(** [{ ...post, notified: b }] *)
Definition withNotified (b : bool) (post : Post) : Post :=
  mkPost (id post) (text post) (time post) (Some b) (color post).

(** ** Effects *)

(** What the component does to the outside, in the order it does it. *)
Inductive Effect :=
| LedgerAdd (i : option JsString)   (* shownToastIds.add(post.id) *)
| AudioPause                        (* alarmSoundRef.current.pause() *)
| AudioRewind                       (* alarmSoundRef.current.currentTime = 0 *)
| AudioLoad                         (* alarmSoundRef.current.load() *)
| AudioPlay                         (* alarmSoundRef.current.play() *)
| ToastCustom (post : Post)         (* the reminder banner, rendered from
                                       post.color and post.text *)
| ToastPlain (post : Post)          (* toast(`Reminder: ...${post.text}...`) *)
| ToastError (msg : string)
| ToastSuccess (msg : string)
| ConsoleWarn (msg : string)
| ConsoleError (msg : string).

Global Instance Effect_eq_dec : EqDecision Effect.
Proof. solve_decision. Defined.

(** What the banner shows of the post: its colour class and its text. *)
Definition banner (e : Effect) : option (option JsString * option JsString) :=
  match e with
  | ToastCustom p => Some (color p, text p)
  | _ => None
  end.

(** The posts announced by a run of effects. *)
Definition announced (tr : list Effect) : list Post :=
  omap (fun e => match e with
                 | ToastCustom p | ToastPlain p => Some p
                 | _ => None
                 end) tr.

(** ** A state monad for callbacks that touch module-level state *)

Definition St (S A : Type) : Type := S -> A * S.

Definition ret {S A} (a : A) : St S A := fun s => (a, s).

Definition bind {S A B} (m : St S A) (k : A -> St S B) : St S B :=
  fun s => let (a, s') := m s in k a s'.

Declare Scope st_scope.
Delimit Scope st_scope with st.
Notation "x <- m ;; k" := (bind m (fun x => k))
  (at level 100, m at next level, right associativity) : st_scope.
Notation "m ;; k" := (bind m (fun _ => k))
  (at level 100, right associativity) : st_scope.

Definition when {S} (b : bool) (m : St S unit) : St S unit :=
  if b then m else ret tt.

(** [array.map(f)], the callback run on the elements from left to right. *)
Fixpoint mapM {S A B} (f : A -> St S B) (l : list A) : St S (list B) :=
  match l with
  | [] => ret []
  | a :: l' => (b <- f a ;; bs <- mapM f l' ;; ret (b :: bs))%st
  end.

(** ** The alarm check *)

(** What [play()] hands back: nothing (old browsers), or a promise that
    is later fulfilled or rejected (playback blocked or failed). *)
Inductive PlayPromise := NoPromise | Fulfilled | Rejected.

(** What a tick reads from its surroundings. *)
Record TickEnv := mkTickEnv {
  now : Z;                        (* new Date().getTime() *)
  alarmSound : bool;              (* alarmSoundRef.current is set *)
  visible : bool;                 (* document.visibilityState === "visible" *)
  playPromise : nat -> PlayPromise  (* what the k-th play() of the tick returns *)
}.

(** The state a tick works on besides the posts. *)
Record Tick := mkTick {
  shownToastIds : gset (option JsString);  (* the module-level Set *)
  out : list Effect;              (* effects so far, oldest first *)
  later : list Effect;            (* promise reactions, run after the callback *)
  plays : nat                     (* play() calls so far *)
}.

Definition emit (e : Effect) : St Tick unit :=
  fun w => (tt, mkTick (shownToastIds w) (out w ++ [e]) (later w) (plays w)).

Definition shownToastIds_has (i : option JsString) : St Tick bool :=
  fun w => (bool_decide (i ∈ shownToastIds w), w).

Definition shownToastIds_add (i : option JsString) : St Tick unit :=
  fun w => (tt, mkTick ({[ i ]} ∪ shownToastIds w) (out w ++ [LedgerAdd i])
                       (later w) (plays w)).

(** [alarmSoundRef.current.play()] *)
Definition audio_play (env : TickEnv) : St Tick PlayPromise :=
  fun w => (playPromise env (plays w),
            mkTick (shownToastIds w) (out w ++ [AudioPlay]) (later w) (S (plays w))).

(** [promise.catch(() => e)]: the handler is queued when the promise is
    rejected, and runs after the callback. *)
Definition promise_catch (p : PlayPromise) (e : Effect) : St Tick unit :=
  fun w => match p with
           | Rejected => (tt, mkTick (shownToastIds w) (out w)
                                     (later w ++ [e]) (plays w))
           | _ => (tt, w)
           end.

(** [Math.floor((postTime.getTime() - now.getTime()) / 60000)]; [None] is
    NaN.  The quotient of two time values is computed in floating point,
    but it is below 1, in [1, 2) or at least 2 exactly when the integer
    quotient is, so the test against 1 is the one on integers. *)
Definition minutesDiff (env : TickEnv) (post : Post) : option Z :=
  match getTime post with
  | Some postTime => Some ((postTime - now env) / 60000)
  | None => None
  end.

(** The callback of [prevPosts.map] in [checkAlarms]. *)
Definition checkPost (env : TickEnv) (post : Post) : St Tick Post :=
  (alreadyShown <- shownToastIds_has (id post) ;;
   if bool_decide (minutesDiff env post = Some 1) && negb alreadyShown then
     shownToastIds_add (id post) ;;
     when (alarmSound env) (emit AudioPause ;; emit AudioRewind) ;;
     emit (ToastCustom post) ;;
     when (alarmSound env)
       (p <- audio_play env ;;
        match p with
        | NoPromise => ret tt
        | _ => promise_catch p (ConsoleWarn "Audio playback prevented")
        end) ;;
     ret (withNotified true post)
   else ret post)%st.

(** The text [JSON.stringify] writes and [JSON.parse] reads, by what it
    holds.  [JSON.parse] gives back what [JSON.stringify] was given, and
    two lists of posts have the same text exactly when they are equal. *)
Inductive JsonText :=
| EmptyText                            (* the empty string *)
| Garbage                              (* not empty, not JSON: parse throws *)
| NotArray                             (* JSON, but no array: no [map] *)
| ArrayText (items : list (option Post)).  (* an array; [None] is a null
                                          element, any other element acts
                                          as a record of the fields it has *)

Global Instance JsonText_eq_dec : EqDecision JsonText.
Proof. solve_decision. Defined.

(** [JSON.stringify(posts)] *)
Definition JSON_stringify (posts : list Post) : JsonText :=
  ArrayText (map Some posts).

(** The updater passed to [setPosts] in [checkAlarms]. *)
Definition checkAlarms (env : TickEnv) (prevPosts : list Post) : St Tick (list Post) :=
  (updatedPosts <- mapM (checkPost env) prevPosts ;;
   if bool_decide (JSON_stringify updatedPosts <> JSON_stringify prevPosts)
   then ret updatedPosts
   else ret prevPosts)%st.

(** A tick from a given ledger, nothing emitted yet. *)
Definition startTick (shown : gset (option JsString)) : Tick :=
  mkTick shown [] [] 0.

(** Promise reactions run once the callback has returned; the next tick
    counts its [play()] calls from zero. *)
Definition settle (w : Tick) : Tick :=
  mkTick (shownToastIds w) (out w ++ later w) [] 0.

(** The interval: one [checkAlarms] per environment, oldest first. *)
Fixpoint runTicks (envs : list TickEnv) (posts : list Post) (w : Tick)
  : list Post * Tick :=
  match envs with
  | [] => (posts, w)
  | env :: envs' =>
      let (posts', w') := checkAlarms env posts w in
      runTicks envs' posts' (settle w')
  end.

(** ** The two views *)

(** [new Date(post.time) > now]; false when the time is NaN. *)
Definition isAfter (now : Z) (post : Post) : bool :=
  match getTime post with
  | Some t => now <? t
  | None => false
  end.

(** [new Date(post.time) <= now]; false when the time is NaN. *)
Definition isNotAfter (now : Z) (post : Post) : bool :=
  match getTime post with
  | Some t => t <=? now
  | None => false
  end.

Definition upcomingPosts (now : Z) (posts : list Post) : list Post :=
  filter (fun post => isAfter now post = true) posts.

Definition pastPosts (now : Z) (posts : list Post) : list Post :=
  filter (fun post => isNotAfter now post = true) posts.

(** ** Component state *)

Record State := mkState {
  input : JsString;
  formTime : option Z;            (* the [time] state: a Date or null *)
  posts : list Post;
  editingPostId : option JsString;
  isLoading : bool
}.

Global Instance State_eq_dec : EqDecision State.
Proof. solve_decision. Defined.

(** The state the component mounts with. *)
Definition initialState : State := mkState [] None [] None true.

Definition setPosts (ps : list Post) (st : State) : State :=
  mkState (input st) (formTime st) ps (editingPostId st) (isLoading st).

Definition setIsLoading (b : bool) (st : State) : State :=
  mkState (input st) (formTime st) (posts st) (editingPostId st) b.

(** ** Loading and saving *)

(** The exceptions the code can meet. *)
Inductive Exn := SyntaxError | TypeError.

Inductive JsonValue :=
| JOther                              (* a value without [map] *)
| JArray (items : list (option Post)).

(** [JSON.parse(stored)] *)
Definition JSON_parse (t : JsonText) : Exn + JsonValue :=
  match t with
  | EmptyText | Garbage => inl SyntaxError
  | NotArray => inr JOther
  | ArrayText items => inr (JArray items)
  end.

(** [if (stored)] on a string: the empty one is falsy. *)
Definition nonEmpty (t : JsonText) : bool :=
  match t with
  | EmptyText => false
  | _ => true
  end.

Record LoadEnv := mkLoadEnv {
  loadNow : Z;                    (* new Date().getTime() inside the try *)
  randomIndex : nat -> nat        (* the k-th Math.random() of the load, scaled *)
}.

(** [COLORS[Math.floor(Math.random() * COLORS.length)]], for a draw [r]:
    the index is below [COLORS.length]. *)
Definition pickColor (r : nat) : JsString :=
  nth (r mod length COLORS)%nat COLORS [].

(** [parsed.map((p) => ({ ...p, color: p.color || COLORS[...], notified: false }))]
    with [k] draws made so far.  Reading [p.color] of a null element
    throws. *)
Fixpoint withColors (env : LoadEnv) (k : nat) (parsed : list (option Post))
  : Exn + list Post :=
  match parsed with
  | [] => inr []
  | None :: _ => inl TypeError
  | Some p :: rest =>
      let (c, k') := if truthy (color p) then (color p, k)
                     else (Some (pickColor (randomIndex env k)), S k) in
      match withColors env k' rest with
      | inl e => inl e
      | inr ps => inr (mkPost (id p) (text p) (time p) (Some false) c :: ps)
      end
  end.

(** The sort key [new Date(a.time).getTime()]; the sort only sees posts
    that passed the filter, whose time is a date. *)
Definition timeKey (post : Post) : Z :=
  match getTime post with
  | Some t => t
  | None => 0
  end.

Fixpoint insertByTime (a : Post) (l : list Post) : list Post :=
  match l with
  | [] => [a]
  | b :: l' => if timeKey a <=? timeKey b then a :: b :: l'
               else b :: insertByTime a l'
  end.

(** [.sort((a, b) => new Date(a.time).getTime() - new Date(b.time).getTime())]:
    ascending and stable. *)
Fixpoint sortByTime (l : list Post) : list Post :=
  match l with
  | [] => []
  | a :: l' => insertByTime a (sortByTime l')
  end.

(** The body of the [try] in [loadPosts]. *)
Definition tryLoad (env : LoadEnv) (stored : JsonText) : Exn + list Post :=
  match JSON_parse stored with
  | inl e => inl e
  | inr JOther => inl TypeError
  | inr (JArray parsed) =>
      match withColors env 0 parsed with
      | inl e => inl e
      | inr colored => inr (sortByTime (upcomingPosts (loadNow env) colored))
      end
  end.

(** [loadPosts], given what [localStorage.getItem("scheduled-posts")]
    returns ([None] is null). *)
Definition loadPosts (env : LoadEnv) (stored : option JsonText) (st : State)
  : State * list Effect :=
  match stored with
  | Some t =>
      if nonEmpty t then
        match tryLoad env t with
        | inr upcoming => (setIsLoading false (setPosts upcoming st), [])
        | inl _ => (setIsLoading false st,
                    [ConsoleError "Failed to parse stored posts";
                     ToastError "Failed to load saved posts"])
        end
      else (setIsLoading false st, [])
  | None => (setIsLoading false st, [])
  end.

(** The save effect, once its 500 ms timer runs:
    [localStorage.setItem("scheduled-posts", JSON.stringify(posts))]. *)
Definition savePosts (ps : list Post) : option JsonText :=
  Some (JSON_stringify ps).

(** ** The form *)

Record SubmitEnv := mkSubmitEnv {
  submitNow : Z;                  (* new Date().getTime() in the third test *)
  uuidv4 : JsString;              (* the id uuidv4() returns *)
  randomColor : nat               (* the Math.random() draw, scaled *)
}.

(** [{ ...post, text: input, time: time.toISOString(), notified: false }] *)
Definition edited (input : JsString) (t : Z) (post : Post) : Post :=
  mkPost (id post) (Some input) (Some (ISO t)) (Some false) (color post).

Definition handleSubmit (env : SubmitEnv) (st : State) : State * list Effect :=
  if negb (truthy (Some (trim (input st)))) then
    (st, [ToastError "Post content cannot be empty"])
  else
    match formTime st with
    | None => (st, [ToastError "Please select a date and time"])
    | Some t =>
        if t <? submitNow env then
          (st, [ToastError "Please select a future date and time"])
        else if truthy (editingPostId st) then
          (mkState [] None
             (map (fun post =>
                     if bool_decide (id post = editingPostId st)
                     then edited (input st) t post else post) (posts st))
             None (isLoading st),
           [ToastSuccess "Post updated successfully"])
        else
          let newPost := mkPost (Some (uuidv4 env)) (Some (input st))
                                (Some (ISO t)) (Some false)
                                (Some (pickColor (randomColor env))) in
          (mkState [] None (newPost :: posts st) (editingPostId st) (isLoading st),
           [ToastSuccess "Post scheduled successfully"])
    end.

(** ** The older component

    The alarm loop of the earlier [Home]: no ledger, the [notified] flag
    guards the reminder and the sound is played only in a visible tab. *)
Module Legacy.

(** [!post.notified] *)
Definition notNotified (post : Post) : bool :=
  match notified post with
  | Some true => false
  | _ => true
  end.

(** The sound part of the callback.  [play()] giving back no promise
    makes [.then] throw. *)
Definition ring (env : TickEnv) : St Tick (Exn + unit) :=
  (if alarmSound env then
     emit AudioPause ;; emit AudioRewind ;; emit AudioLoad ;;
     if visible env then
       p <- audio_play env ;;
       match p with
       | NoPromise => ret (inl TypeError)
       | _ => promise_catch p (ConsoleError "❌ Alarm Failed to Play:") ;;
              ret (inr tt)
       end
     else
       emit (ConsoleWarn "🚫 Tab not visible. Alarm skipped.") ;; ret (inr tt)
   else ret (inr tt))%st.

(** The callback of [posts.map] in the interval. *)
Definition checkPost (env : TickEnv) (post : Post) : St Tick (Exn + Post) :=
  (if bool_decide (minutesDiff env post = Some 1) && notNotified post then
     emit (ToastPlain post) ;;
     r <- ring env ;;
     match r with
     | inl e => ret (inl e)
     | inr _ => ret (inr (withNotified true post))
     end
   else ret (inr post))%st.

Fixpoint mapPosts (env : TickEnv) (l : list Post) : St Tick (Exn + list Post) :=
  match l with
  | [] => ret (inr [])
  | a :: l' =>
      (r <- checkPost env a ;;
       match r with
       | inl e => ret (inl e)
       | inr b =>
           rs <- mapPosts env l' ;;
           match rs with
           | inl e => ret (inl e)
           | inr bs => ret (inr (b :: bs))
           end
       end)%st
  end.

(** The interval callback: [setPosts(updated)] is reached unless the
    map threw. *)
Definition tick (env : TickEnv) (posts : list Post) : St Tick (Exn + list Post) :=
  mapPosts env posts.

End Legacy.

(** ** Vocabulary of the statements *)

(** The reminder condition: one whole minute is left and the id is not in
    the ledger. *)
Definition Due (env : TickEnv) (shown : gset (option JsString)) (p : Post) : Prop :=
  (exists t, getTime p = Some t /\ (t - now env) / 60000 = 1) /\ id p ∉ shown.

(** What firing a reminder for [p] emits, in order. *)
Definition reminderOut (env : TickEnv) (p : Post) : list Effect :=
  LedgerAdd (id p)
    :: (if alarmSound env then [AudioPause; AudioRewind] else [])
    ++ ToastCustom p
    :: (if alarmSound env then [AudioPlay] else []).

(** The promise reaction firing a reminder queues, [k] plays made so far. *)
Definition reminderLater (env : TickEnv) (k : nat) : list Effect :=
  if alarmSound env then
    match playPromise env k with
    | Rejected => [ConsoleWarn "Audio playback prevented"]
    | _ => []
    end
  else [].

(** The tick state after firing a reminder for [p] from [w]. *)
Definition fired (env : TickEnv) (p : Post) (w : Tick) : Tick :=
  mkTick ({[ id p ]} ∪ shownToastIds w)
         (out w ++ reminderOut env p)
         (later w ++ reminderLater env (plays w))
         (if alarmSound env then S (plays w) else plays w).

(** [post.notified] read as a condition: an absent flag is falsy. *)
Definition flag (p : Post) : bool :=
  match notified p with
  | Some true => true
  | _ => false
  end.

(** The fields of a post a reload has to keep. *)
Definition core (p : Post) : option JsString * option JsString * option TimeString :=
  (id p, text p, time p).

(** [q] is the stored record [r] as the load keeps it: same [id], [text]
    and [time], the flag lowered, the colour kept or drawn from the
    palette when the record has none. *)
Definition Loaded (r q : Post) : Prop :=
  core q = core r /\ notified q = Some false
  /\ (if truthy (color r) then color q = color r
      else exists c, c ∈ COLORS /\ color q = Some c).

(** A stored text that does not parse as an array of records. *)
Definition Malformed (t : JsonText) : Prop :=
  forall rs, JSON_parse t <> inr (JArray (map Some rs)).

(** The warning [loadPosts] raises from its [catch]. *)
Definition loadWarning : list Effect :=
  [ConsoleError "Failed to parse stored posts";
   ToastError "Failed to load saved posts"].

(** ** Sample data *)

(** A moment to stand for "now", in milliseconds since the epoch. *)
Definition noon : Z := 1750000000000.

(** A post due ninety seconds after [noon]. *)
Definition release : Post :=
  mkPost (Some (js "p1")) (Some (js "Ship release")) (Some (ISO (noon + 90000)))
         (Some false) (Some (js "bg-pink-500")).

(** The same post with its flag already raised. *)
Definition flagged : Post := withNotified true release.

(** A post due five minutes before [noon]. *)
Definition stale : Post :=
  mkPost (Some (js "p0")) (Some (js "Stand-up")) (Some (ISO (noon - 300000)))
         (Some false) (Some (js "bg-amber-500")).

(** Stored records that lack a field. *)
Definition nameless : Post :=
  mkPost None (Some (js "No id")) (Some (ISO (noon + 90000))) None None.

Definition wordless : Post :=
  mkPost (Some (js "p2")) None (Some (ISO (noon + 90000))) None None.

Definition timeless : Post :=
  mkPost (Some (js "p3")) (Some (js "No time")) None None None.

Definition atNoon : LoadEnv := mkLoadEnv noon (fun k => k).

(** A tick at [noon] with the sound loaded, in a tab that is hidden. *)
Definition hiddenTab : TickEnv := mkTickEnv noon true false (fun _ => Rejected).

(** A tick at [noon] in a visible tab. *)
Definition visibleTab : TickEnv := mkTickEnv noon true true (fun _ => Fulfilled).

Definition submitAtNoon : SubmitEnv := mkSubmitEnv noon (js "uuid-1") 3.

(** ** Editing, deleting, clearing *)

(** [handleEdit(post)]: the form takes the text and the time of the post
    and the id to edit (the scroll to the top is not recorded).  [None]
    when the post has no text or no valid time: the form would hold
    [undefined], on which the next render throws at [input.trim()], or an
    Invalid Date, and [State] holds neither. *)
Definition handleEdit (post : Post) (st : State) : option State :=
  match text post, getTime post with
  | Some s, Some t =>
      Some (mkState s (Some t) (posts st) (id post) (isLoading st))
  | _, _ => None
  end.

(** The confirmation toast [handleDelete(id)] raises.  Its Delete button
    closes over [id] and over the [posts] of the render that raised the
    toast. *)
Record DeleteDialog := mkDeleteDialog {
  captured : list Post;
  victim : option JsString
}.

Definition handleDelete (i : option JsString) (st : State) : DeleteDialog :=
  mkDeleteDialog (posts st) i.

(** The Delete button of the toast:
    [setPosts(posts.filter((p) => p.id !== id)); toast.success("Post deleted")]. *)
Definition confirmDelete (d : DeleteDialog) (st : State) : State * list Effect :=
  (setPosts (filter (fun p => id p <> victim d) (captured d)) st,
   [ToastSuccess "Post deleted"]).

(** The Clear All button of the toast [clearAll()] raises:
    [setPosts([]); localStorage.removeItem("scheduled-posts");
    toast.success("All posts cleared")].  The second component is the
    stored item afterwards. *)
Definition confirmClearAll (st : State) : State * option JsonText * list Effect :=
  (setPosts [] st, None, [ToastSuccess "All posts cleared"]).

(** ** A session *)

(** The interval over a session in which the posts change between the
    ticks, by the form, a deletion or a tick: each tick is given the posts
    of its moment, and the ledger is carried along. *)
Fixpoint runSession (steps : list (TickEnv * list Post)) (w : Tick) : Tick :=
  match steps with
  | [] => w
  | (env, ps) :: rest => runSession rest (settle (checkAlarms env ps w).2)
  end.

(** The flags agree with the ledger: a post whose flag is raised has its
    id in the ledger. *)
Definition FlagsInLedger (ps : list Post) (shown : gset (option JsString)) : Prop :=
  forall p, p ∈ ps -> flag p = true -> id p ∈ shown.

(** No other post of the list has the id of [p]. *)
Definition OnlyOne (p : Post) (ps : list Post) : Prop :=
  forall q, q ∈ ps -> id q = id p -> q = p.

(** What the effects of a tick state say about the ledger: the ids
    announced differ from each other and are in the ledger, and no
    promise reaction announces. *)
Definition Tidy (w : Tick) : Prop :=
  NoDup (map id (announced (out w)))
  /\ announced (later w) = []
  /\ (forall q, q ∈ announced (out w) -> id q ∈ shownToastIds w).

(** A post made forty-five seconds before it is due. *)
Definition soon : Post :=
  mkPost (Some (js "p4")) (Some (js "Soon")) (Some (ISO (noon + 45000)))
         (Some false) (Some (js "bg-pink-500")).

(** Three ticks of the interval, thirty seconds apart, from [noon]. *)
Definition threeTicks : list TickEnv :=
  [ mkTickEnv noon true true (fun _ => Fulfilled);
    mkTickEnv (noon + 30000) true true (fun _ => Fulfilled);
    mkTickEnv (noon + 60000) true true (fun _ => Fulfilled) ].

(** A post the form can take: with a text that is not blank, a valid time
    and a truthy id. *)
Definition release2 : Post :=
  mkPost (Some (js "p9")) (Some (js "Retro")) (Some (ISO (noon + 600000)))
         (Some true) (Some (js "bg-purple-500")).

(** * Properties *)

(** ** The map of the state monad *)

Lemma mapM_app {S A B} (f : A -> St S B) (l1 l2 : list A) (s : S) :
  mapM f (l1 ++ l2) s =
  (let (b1, s1) := mapM f l1 s in
   let (b2, s2) := mapM f l2 s1 in (b1 ++ b2, s2)).
Proof.
  revert s. induction l1 as [|a l1 IH]; intros s; simpl.
  - unfold ret. by destruct (mapM f l2 s).
  - unfold bind, ret. destruct (f a s) as [b s']. rewrite IH.
    destruct (mapM f l1 s') as [b1 s1]. destruct (mapM f l2 s1) as [b2 s2].
    reflexivity.
Qed.

Lemma mapM_length {S A B} (f : A -> St S B) (l : list A) (s : S) :
  length (mapM f l s).1 = length l.
Proof.
  revert s. induction l as [|a l IH]; intros s; simpl; [done|].
  unfold bind, ret. destruct (f a s) as [b s'].
  specialize (IH s'). destruct (mapM f l s') as [bs s''].
  simpl in *. by rewrite IH.
Qed.

(** ** The callback of the alarm check *)

Section AlarmCheck.

Context (env : TickEnv).

Lemma minutesDiff_one p :
  minutesDiff env p = Some 1 <->
  exists t, getTime p = Some t /\ (t - now env) / 60000 = 1.
Proof.
  unfold minutesDiff. destruct (getTime p) as [t|]; split.
  - intros [= H]. eauto.
  - intros (t' & [= <-] & H). by rewrite H.
  - discriminate.
  - intros (t' & [=] & _).
Qed.

Lemma minutesDiff_window p :
  minutesDiff env p = Some 1 <->
  exists t, getTime p = Some t /\ 60000 <= t - now env < 120000.
Proof.
  rewrite minutesDiff_one. split; intros (t & Ht & H); exists t; split; auto.
  - pose proof (Z.div_mod (t - now env) 60000 ltac:(lia)) as E.
    pose proof (Z.mod_pos_bound (t - now env) 60000 ltac:(lia)). lia.
  - symmetry. apply (Z.div_unique _ _ _ (t - now env - 60000)); lia.
Qed.

Lemma test_is_Due p w :
  bool_decide (minutesDiff env p = Some 1)
    && negb (bool_decide (id p ∈ shownToastIds w)) = true
  <-> Due env (shownToastIds w) p.
Proof.
  unfold Due. rewrite <- minutesDiff_one.
  rewrite andb_true_iff, negb_true_iff, bool_decide_eq_true, bool_decide_eq_false.
  tauto.
Qed.

Lemma checkPost_due p w :
  Due env (shownToastIds w) p ->
  checkPost env p w = (withNotified true p, fired env p w).
Proof.
  intros HD. apply test_is_Due in HD.
  unfold checkPost, bind, shownToastIds_has. rewrite HD.
  unfold fired, reminderOut, reminderLater, shownToastIds_add, when, emit,
    audio_play, promise_catch, bind, ret; simpl.
  destruct (alarmSound env); simpl.
  - destruct (playPromise env (plays w)); simpl;
      rewrite <- ?app_assoc; simpl; rewrite ?app_nil_r; reflexivity.
  - rewrite <- ?app_assoc; simpl; rewrite ?app_nil_r. reflexivity.
Qed.

Lemma checkPost_not_due p w :
  ~ Due env (shownToastIds w) p ->
  checkPost env p w = (p, w).
Proof.
  intros HD. rewrite <- test_is_Due in HD. apply not_true_is_false in HD.
  unfold checkPost, bind, shownToastIds_has. rewrite HD. reflexivity.
Qed.

Lemma Due_dec shown p : {Due env shown p} + {~ Due env shown p}.
Proof.
  destruct (decide (minutesDiff env p = Some 1)) as [H|H];
    [destruct (decide (id p ∈ shown)) as [Hi|Hi]|].
  - right. intros [_ ?]. contradiction.
  - left. split; [by apply minutesDiff_one | done].
  - right. intros [? _]. apply H. by apply minutesDiff_one.
Qed.

(** Case analysis on the test of the callback for [p] in state [w]. *)
Ltac case_due w p HD :=
  destruct (Due_dec (shownToastIds w) p) as [HD|HD];
  [rewrite (checkPost_due p w HD)|rewrite (checkPost_not_due p w HD)].

(** ** The map over the posts *)

(** The comparison of the two JSON texts only chooses between two equal
    lists. *)
Lemma checkAlarms_mapM l w :
  checkAlarms env l w = mapM (checkPost env) l w.
Proof.
  unfold checkAlarms, bind. destruct (mapM (checkPost env) l w) as [u w'].
  case_bool_decide as H; [done|].
  unfold ret. f_equal. unfold JSON_stringify in H.
  injection H as H. symmetry. revert H. apply (inj (map Some)).
Qed.

Lemma checkAlarms_nil w : checkAlarms env [] w = ([], w).
Proof. by rewrite checkAlarms_mapM. Qed.

Lemma checkAlarms_cons p l w :
  checkAlarms env (p :: l) w =
  (let (p', w1) := checkPost env p w in
   let (l', w2) := checkAlarms env l w1 in (p' :: l', w2)).
Proof.
  rewrite checkAlarms_mapM. simpl. unfold bind, ret.
  destruct (checkPost env p w) as [p' w1]. rewrite checkAlarms_mapM.
  by destruct (mapM (checkPost env) l w1).
Qed.

Lemma checkAlarms_app l1 l2 w :
  checkAlarms env (l1 ++ l2) w =
  (let (b1, w1) := checkAlarms env l1 w in
   let (b2, w2) := checkAlarms env l2 w1 in (b1 ++ b2, w2)).
Proof.
  rewrite !checkAlarms_mapM, mapM_app.
  destruct (mapM (checkPost env) l1 w) as [b1 w1].
  by rewrite checkAlarms_mapM.
Qed.

Lemma checkAlarms_length l w : length (checkAlarms env l w).1 = length l.
Proof. rewrite checkAlarms_mapM. apply mapM_length. Qed.

Lemma announced_app tr1 tr2 : announced (tr1 ++ tr2) = announced tr1 ++ announced tr2.
Proof. apply omap_app. Qed.

Lemma announced_reminderOut p : announced (reminderOut env p) = [p].
Proof. unfold reminderOut. by destruct (alarmSound env). Qed.

(** The ledger after a tick: what it held, and the ids of the posts one
    minute away. *)
Lemma checkAlarms_ledger l w i :
  i ∈ shownToastIds (checkAlarms env l w).2 <->
  i ∈ shownToastIds w \/ exists q, q ∈ l /\ id q = i /\ minutesDiff env q = Some 1.
Proof.
  revert w. induction l as [|p l IH]; intros w.
  - rewrite checkAlarms_nil. simpl. split; [auto|].
    intros [?|(q & Hq & _)]; [done|]. by apply elem_of_nil in Hq.
  - rewrite checkAlarms_cons.
    case_due w p HD.
    +       specialize (IH (fired env p w)).
      destruct (checkAlarms env l (fired env p w)) as [l' w2]. simpl in *.
      rewrite IH. rewrite elem_of_union, elem_of_singleton.
      destruct HD as [HD _]. apply minutesDiff_one in HD.
      split.
      * intros [[Hi|Hi]|(q & Hq & Hid & Hm)].
        -- right. exists p. split; [apply elem_of_cons; by left|done].
        -- by left.
        -- right. exists q. split; [apply elem_of_cons; by right|done].
      * intros [Hi|(q & Hq & Hid & Hm)]; [by left; right|].
        apply elem_of_cons in Hq as [Hq|Hq].
        -- left. left. by rewrite <- Hid, Hq.
        -- right. by exists q.
    + specialize (IH w). destruct (checkAlarms env l w) as [l' w2]. simpl in *.
      rewrite IH. split.
      * intros [Hi|(q & Hq & Hid & Hm)]; [by left|].
        right. exists q. split; [apply elem_of_cons; by right|done].
      * intros [Hi|(q & Hq & Hid & Hm)]; [by left|].
        apply elem_of_cons in Hq as [Hq|Hq]; [|right; by exists q].
        left. subst q i.
        destruct (decide (id p ∈ shownToastIds w)) as [|Hn]; [done|].
        exfalso. apply HD. split; [by apply minutesDiff_one|done].
Qed.

(** A tick over posts none of which is due does nothing. *)
Lemma checkAlarms_quiet l w :
  (forall q, q ∈ l -> ~ Due env (shownToastIds w) q) ->
  checkAlarms env l w = (l, w).
Proof.
  induction l as [|p l IH]; intros H.
  - apply checkAlarms_nil.
  - rewrite checkAlarms_cons, checkPost_not_due.
    + rewrite IH; [done|]. intros q Hq. apply H, elem_of_cons. by right.
    + apply H, elem_of_cons. by left.
Qed.

(** Position by position, a tick keeps a post or raises its flag. *)
Lemma checkAlarms_pointwise l w :
  Forall2 (fun p p' => p' = p \/ p' = withNotified true p) l (checkAlarms env l w).1.
Proof.
  revert w. induction l as [|p l IH]; intros w.
  - rewrite checkAlarms_nil. constructor.
  - rewrite checkAlarms_cons.
    case_due w p HD.
    + specialize (IH (fired env p w)).
      destruct (checkAlarms env l (fired env p w)). constructor; auto.
    + specialize (IH w).
      destruct (checkAlarms env l w). constructor; auto.
Qed.

(** What a tick emits: the reminders of posts with pairwise different
    ids, none of them in the ledger before and all of them after. *)
Lemma checkAlarms_out l w :
  exists new,
    out (checkAlarms env l w).2 = out w ++ new
    /\ NoDup (map id (announced new))
    /\ (forall q, q ∈ announced new ->
          q ∈ l /\ (id q ∉ shownToastIds w) /\ minutesDiff env q = Some 1)
    /\ (forall i, i ∈ shownToastIds w -> i ∈ shownToastIds (checkAlarms env l w).2).
Proof.
  revert w. induction l as [|p l IH]; intros w.
  - rewrite checkAlarms_nil. exists []. simpl. rewrite app_nil_r.
    split; [done|]. split; [constructor|]. split; [|done].
    intros q Hq. by apply elem_of_nil in Hq.
  - rewrite checkAlarms_cons.
    case_due w p HD.
    +       destruct (IH (fired env p w)) as (new & Hout & Hnd & Hq & Hmono).
      destruct (checkAlarms env l (fired env p w)) as [l' w2]. simpl in *.
      exists (reminderOut env p ++ new). rewrite Hout, app_assoc.
      rewrite announced_app, announced_reminderOut. simpl.
      split; [done|]. split; [|split].
      * constructor; [|done]. rewrite list_elem_of_fmap.
        intros (q & Heq & Hin). destruct (Hq q Hin) as (_ & Hn & _).
        apply Hn. rewrite <- Heq. apply elem_of_union. left.
        by apply elem_of_singleton.
      * intros q Hin. apply elem_of_cons in Hin as [->|Hin].
        -- split; [apply elem_of_cons; by left|].
           split; [apply HD|apply minutesDiff_one, HD].
        -- destruct (Hq q Hin) as (Hl & Hn & Hm).
           split; [apply elem_of_cons; by right|]. split; [|done].
           intros Hi. apply Hn, elem_of_union. by right.
      * intros i Hi. apply Hmono, elem_of_union. by right.
    + destruct (IH w) as (new & Hout & Hnd & Hq & Hmono).
      destruct (checkAlarms env l w) as [l' w2]. simpl in *.
      exists new. split; [done|]. split; [done|]. split; [|done].
      intros q Hin. destruct (Hq q Hin) as (Hl & Hn & Hm).
      split; [apply elem_of_cons; by right|done].
Qed.

(** The promise reactions a tick queues announce nothing. *)
Lemma checkAlarms_later l w :
  announced (later w) = [] -> announced (later (checkAlarms env l w).2) = [].
Proof.
  revert w. induction l as [|p l IH]; intros w H0.
  - by rewrite checkAlarms_nil.
  - rewrite checkAlarms_cons.
    case_due w p HD.
    + specialize (IH (fired env p w)).
      destruct (checkAlarms env l (fired env p w)). apply IH. simpl.
      rewrite announced_app, H0. unfold reminderLater.
      destruct (alarmSound env); [|done]. by destruct (playPromise env _).
    + specialize (IH w).
      destruct (checkAlarms env l w). by apply IH.
Qed.

(** ** The alarm check as a whole *)

(** C1.  In a tick at time [now env] over the posts [l1 ++ p :: l2], the
    callback reaches [p] with the ledger [shownToastIds r1.2]: what the
    ledger held when the tick began and the ids of the posts of [l1] that
    are one minute away (so, with ids that differ, the ledger of the
    beginning as far as [id p] goes).  The tick announces [p] with the
    banner of its colour and text and sets [notified] exactly when
    [floor((time p - now) / 60000) = 1] and [id p] is absent from that
    ledger; it then puts [id p] into the ledger before the banner is
    raised.  Otherwise the step leaves the post and the tick state as they
    are. *)
Theorem checkAlarms_fires_exactly_when_due l1 p l2 w :
  let r1 := checkAlarms env l1 w in
  let rp := checkPost env p r1.2 in
  let r2 := checkAlarms env l2 rp.2 in
  checkAlarms env (l1 ++ p :: l2) w = (r1.1 ++ rp.1 :: r2.1, r2.2)
  /\ length r1.1 = length l1
  /\ (forall i, i ∈ shownToastIds r1.2 <->
        i ∈ shownToastIds w \/
        exists q, q ∈ l1 /\ id q = i /\
                  exists t, getTime q = Some t /\ (t - now env) / 60000 = 1)
  /\ (id p ∉ map id l1 -> id p ∈ shownToastIds r1.2 <-> id p ∈ shownToastIds w)
  /\ (Due env (shownToastIds r1.2) p ->
        rp.1 = withNotified true p
        /\ notified rp.1 = Some true
        /\ shownToastIds rp.2 = {[ id p ]} ∪ shownToastIds r1.2
        /\ exists prep rest,
             out rp.2 = out r1.2 ++ LedgerAdd (id p) :: prep ++ ToastCustom p :: rest
             /\ announced prep = [] /\ announced rest = []
             /\ banner (ToastCustom p) = Some (color p, text p))
  /\ (~ Due env (shownToastIds r1.2) p -> rp = (p, r1.2)).
Proof.
  intros r1 rp r2.
  assert (Hled : forall i, i ∈ shownToastIds r1.2 <->
        i ∈ shownToastIds w \/
        exists q, q ∈ l1 /\ id q = i /\
                  exists t, getTime q = Some t /\ (t - now env) / 60000 = 1).
  { intros i. subst r1. rewrite checkAlarms_ledger.
    split; (intros [?|(q & ? & ? & Hm)]; [by left|right; exists q]);
      (split; [done|split; [done|]]); by apply minutesDiff_one. }
  split; [|split; [|split; [|split; [|split]]]].
  - subst r2 rp r1. rewrite checkAlarms_app.
    destruct (checkAlarms env l1 w) as [b1 w1]. simpl.
    rewrite checkAlarms_cons.
    destruct (checkPost env p w1) as [p' w2]. simpl.
    by destruct (checkAlarms env l2 w2).
  - apply checkAlarms_length.
  - exact Hled.
  - intros Hfresh. rewrite Hled. split; [|by left].
    intros [?|(q & Hq & Hid & _)]; [done|].
    exfalso. apply Hfresh. apply list_elem_of_fmap. by exists q.
  - intros HD. subst rp. rewrite (checkPost_due _ _ HD). simpl.
    split; [done|]. split; [done|]. split; [done|].
    exists (if alarmSound env then [AudioPause; AudioRewind] else []),
           (if alarmSound env then [AudioPlay] else []).
    split; [done|]. by destruct (alarmSound env).
  - intros HD. subst rp. by rewrite (checkPost_not_due _ _ HD).
Qed.

(** C2.  Two ticks one after the other at the same time, nothing changed
    in between: the second leaves the posts and the ledger as the first
    left them and emits nothing, and in all that the two have emitted no
    two announcements are for the same id. *)
Theorem checkAlarms_twice_announces_once (l : list Post)
  (shown : gset (option JsString)) :
  let r1 := checkAlarms env l (startTick shown) in
  let r2 := checkAlarms env r1.1 (settle r1.2) in
  r2.1 = r1.1
  /\ shownToastIds r2.2 = shownToastIds r1.2
  /\ out r2.2 = out r1.2 ++ later r1.2
  /\ later r2.2 = []
  /\ announced (later r1.2) = []
  /\ NoDup (map id (announced (out r2.2 ++ later r2.2))).
Proof.
  intros r1 r2.
  assert (Hq : r2 = (r1.1, settle r1.2)).
  { subst r2. apply checkAlarms_quiet. intros q Hq [Hm Hn]. apply Hn. simpl.
    pose proof (checkAlarms_pointwise l (startTick shown)) as HF.
    fold r1 in HF. apply list_elem_of_lookup in Hq as [k Hk].
    destruct (Forall2_lookup_r _ _ _ _ _ HF Hk) as (q0 & Hk0 & Hrel).
    subst r1. apply checkAlarms_ledger. right. exists q0.
    split; [by eapply list_elem_of_lookup_2|].
    destruct Hrel as [->| ->]; (split; [done|]); by apply minutesDiff_one. }
  destruct (checkAlarms_out l (startTick shown)) as (new & Hout & Hnd & _).
  fold r1 in Hout. simpl in Hout.
  assert (Hl : announced (later r1.2) = []) by by apply checkAlarms_later.
  rewrite Hq. simpl. repeat split; auto.
  rewrite app_nil_r, announced_app, Hl, app_nil_r, Hout. done.
Qed.

(** C10.  A tick neither adds, drops nor moves a post: the list it
    returns matches the one it was given position by position, each post
    with the [id], [text], [time] and [color] it had; [notified] is either
    what it was, or has gone from not set to true. *)
Theorem checkAlarms_frame l w :
  Forall2 (fun p p' =>
             id p' = id p /\ text p' = text p /\ time p' = time p
             /\ color p' = color p
             /\ (notified p' = notified p
                 \/ (flag p = false /\ notified p' = Some true)))
          l (checkAlarms env l w).1.
Proof.
  eapply Forall2_impl; [apply checkAlarms_pointwise|].
  intros p p' [->| ->]; simpl; [tauto|].
  repeat split; auto. unfold flag.
  destruct (notified p) as [[|]|]; auto.
Qed.

End AlarmCheck.

(** ** Loading *)

Lemma pickColor_COLORS r : pickColor r ∈ COLORS.
Proof.
  unfold pickColor. apply list_elem_of_In, nth_In.
  apply Nat.mod_upper_bound. discriminate.
Qed.

Lemma withColors_records env k rs :
  exists colored,
    withColors env k (map Some rs) = inr colored /\ Forall2 Loaded rs colored.
Proof.
  revert k. induction rs as [|r rs IH]; intros k; simpl.
  - exists []. split; [done|constructor].
  - destruct (truthy (color r)) eqn:Hc.
    + destruct (IH k) as (cs & -> & HF). eexists. split; [done|].
      constructor; [|done]. unfold Loaded. rewrite Hc. by simpl.
    + destruct (IH (S k)) as (cs & -> & HF). eexists. split; [done|].
      constructor; [|done]. unfold Loaded. rewrite Hc. simpl.
      repeat split. eexists. split; [apply pickColor_COLORS|done].
Qed.

Lemma withColors_null env k items :
  None ∈ items -> withColors env k items = inl TypeError.
Proof.
  revert k. induction items as [|[r|] items IH]; intros k Hin.
  - by apply elem_of_nil in Hin.
  - apply elem_of_cons in Hin as [|Hin]; [done|]. simpl.
    destruct (truthy (color r)); by rewrite IH.
  - done.
Qed.

Lemma items_records_or_null (items : list (option Post)) :
  (exists rs, items = map Some rs) \/ None ∈ items.
Proof.
  induction items as [|[r|] items IH].
  - left. by exists [].
  - destruct IH as [[rs ->]|Hn].
    + left. by exists (r :: rs).
    + right. apply elem_of_cons. by right.
  - right. apply elem_of_cons. by left.
Qed.

Lemma insertByTime_Permutation a l : insertByTime a l ≡ₚ a :: l.
Proof.
  induction l as [|b l IH]; simpl; [done|].
  destruct (timeKey a <=? timeKey b); [done|].
  rewrite IH. apply Permutation_swap.
Qed.

Lemma sortByTime_Permutation l : sortByTime l ≡ₚ l.
Proof.
  induction l as [|a l IH]; simpl; [done|].
  by rewrite insertByTime_Permutation, IH.
Qed.

Lemma insertByTime_Sorted a l :
  Sorted (fun x y => timeKey x <= timeKey y) l ->
  Sorted (fun x y => timeKey x <= timeKey y) (insertByTime a l).
Proof.
  induction 1 as [|b l Hs IH Hb]; simpl.
  - repeat constructor.
  - destruct (Z.leb_spec (timeKey a) (timeKey b)).
    + repeat constructor; auto.
    + constructor; [done|].
      destruct l as [|c l]; simpl in *.
      * constructor. lia.
      * destruct (timeKey a <=? timeKey c); constructor; [lia|].
        by inversion Hb.
Qed.

Lemma sortByTime_Sorted l :
  Sorted (fun x y => timeKey x <= timeKey y) (sortByTime l).
Proof.
  induction l as [|a l IH]; simpl; [constructor|].
  by apply insertByTime_Sorted.
Qed.

Lemma Loaded_isAfter now r q : Loaded r q -> isAfter now q = isAfter now r.
Proof.
  intros ([= _ _ Ht] & _). unfold isAfter, getTime. by rewrite Ht.
Qed.

Lemma upcomingPosts_Loaded now rs qs :
  Forall2 Loaded rs qs ->
  Forall2 Loaded (upcomingPosts now rs) (upcomingPosts now qs).
Proof.
  induction 1 as [|r q rs qs HL HF IH]; [constructor|].
  unfold upcomingPosts in *. rewrite !filter_cons.
  rewrite (Loaded_isAfter now r q HL).
  destruct (decide (isAfter now r = true)); [by constructor|done].
Qed.

(** What the load makes of an array of records. *)
Lemma tryLoad_records env rs :
  exists kept,
    tryLoad env (ArrayText (map Some rs)) = inr (sortByTime kept)
    /\ Forall2 Loaded (upcomingPosts (loadNow env) rs) kept.
Proof.
  unfold tryLoad. simpl.
  destruct (withColors_records env 0 rs) as (cs & -> & HF).
  eexists. split; [done|]. by apply upcomingPosts_Loaded.
Qed.

Lemma tryLoad_malformed env t : Malformed t -> exists e, tryLoad env t = inl e.
Proof.
  intros HM. unfold tryLoad. destruct t as [| | |items]; simpl; eauto.
  destruct (items_records_or_null items) as [[rs ->]|Hn].
  - exfalso. by apply (HM rs).
  - rewrite withColors_null by done. eauto.
Qed.

(** C8, as the code has it.  A stored text that does not parse as an
    array of records leaves the posts as they were, the empty list the
    component mounts with; when the text is not empty the load logs the
    error and warns the user, and the empty string it passes over in
    silence.  The load returns in every case; nothing is thrown past
    it. *)
Theorem loadPosts_malformed_warns env t st :
  Malformed t ->
  loadPosts env (Some t) st
    = (setIsLoading false st, if nonEmpty t then loadWarning else [])
  /\ posts (loadPosts env (Some t) initialState).1 = [].
Proof.
  intros HM. unfold loadPosts. destruct (nonEmpty t); [|done].
  by destruct (tryLoad_malformed env t HM) as [e ->].
Qed.

Lemma loadPosts_malformed_warns_witness :
  loadPosts atNoon (Some Garbage) initialState
    = (setIsLoading false initialState, loadWarning)
  /\ posts (loadPosts atNoon (Some Garbage) initialState).1 = [].
Proof.
  apply (loadPosts_malformed_warns atNoon Garbage initialState).
  intros rs. discriminate.
Defined.

(** Counterexample to C8 as stated: the empty string does not parse, and
    the load skips it without a warning. *)
Lemma loadPosts_empty_text_silent :
  Malformed EmptyText
  /\ JSON_parse EmptyText = inl SyntaxError
  /\ loadPosts atNoon (Some EmptyText) initialState
     = (setIsLoading false initialState, []).
Proof. split; [intros rs; discriminate|split; reflexivity]. Qed.

(** C9, as the code has it.  From a stored array of records the load
    keeps exactly those whose [time] is a date after the load (a record
    without [time] is not kept), sorted by time; each kept record has its
    [id], [text] and [time] as stored, present or not, and a colour: its
    own, or one of the palette when it has none. *)
Theorem loadPosts_records env rs st :
  let ps := posts (loadPosts env (Some (ArrayText (map Some rs))) st).1 in
  (exists kept, ps = sortByTime kept
                /\ Forall2 Loaded (upcomingPosts (loadNow env) rs) kept)
  /\ (forall q, q ∈ ps ->
        truthy (color q) = true
        /\ exists t, time q = Some (ISO t) /\ loadNow env < t)
  /\ (forall r, r ∈ rs -> isAfter (loadNow env) r = true ->
        exists q, q ∈ ps /\ Loaded r q).
Proof.
  intros ps. subst ps. unfold loadPosts. simpl.
  destruct (tryLoad_records env rs) as (kept & -> & HF). simpl.
  assert (Hin: forall q, q ∈ sortByTime kept ->
            exists r, r ∈ rs /\ isAfter (loadNow env) r = true /\ Loaded r q).
  { intros q Hq. rewrite sortByTime_Permutation in Hq.
    apply list_elem_of_lookup in Hq as [k Hk].
    destruct (Forall2_lookup_r _ _ _ _ _ HF Hk) as (r & Hr & HL).
    exists r. apply list_elem_of_lookup_2 in Hr.
    apply list_elem_of_filter in Hr as [? ?]. done. }
  split; [by exists kept|]. split.
  - intros q Hq. destruct (Hin q Hq) as (r & _ & Ha & HL).
    rewrite <- (Loaded_isAfter _ _ _ HL) in Ha.
    destruct HL as (_ & _ & Hc). split.
    + destruct (truthy (color r)) eqn:Hr; [by rewrite Hc|].
      destruct Hc as (c & Hc & ->). unfold COLORS in Hc.
      repeat (apply elem_of_cons in Hc as [->|Hc]; [done|]).
      by apply elem_of_nil in Hc.
    + unfold isAfter, getTime in Ha.
      destruct (time q) as [[t|]|]; try discriminate.
      exists t. split; [done|]. by apply Z.ltb_lt.
  - intros r Hr Ha.
    assert (Hu : r ∈ upcomingPosts (loadNow env) rs)
      by by apply list_elem_of_filter.
    apply list_elem_of_lookup in Hu as [k Hk].
    destruct (Forall2_lookup_l _ _ _ _ _ HF Hk) as (q & Hq & HL).
    exists q. split; [|done]. rewrite sortByTime_Permutation.
    by eapply list_elem_of_lookup_2.
Qed.

(** Counterexample to C9 as stated: a record without [id] and one
    without [text] are both kept, while the one without [time] is
    dropped. *)
Lemma loadPosts_keeps_nameless :
  id nameless = None /\ text wordless = None
  /\ posts (loadPosts atNoon
              (Some (ArrayText [Some nameless; Some wordless; Some timeless]))
              initialState).1
     = [ mkPost None (Some (js "No id")) (Some (ISO (noon + 90000)))
                (Some false) (Some (js "bg-indigo-500"));
         mkPost (Some (js "p2")) None (Some (ISO (noon + 90000)))
                (Some false) (Some (js "bg-pink-500")) ].
Proof. split; [|split]; reflexivity. Qed.

Lemma tryLoad_after env t ps q :
  tryLoad env t = inr ps -> q ∈ ps ->
  exists ms, time q = Some (ISO ms) /\ loadNow env < ms.
Proof.
  unfold tryLoad. destruct (JSON_parse t) as [e|[|items]]; try discriminate.
  destruct (withColors env 0 items) as [e|cs]; [discriminate|].
  intros [= <-] Hq. rewrite sortByTime_Permutation in Hq.
  apply list_elem_of_filter in Hq as [Ha _].
  unfold isAfter, getTime in Ha. destruct (time q) as [[ms|]|]; try discriminate.
  exists ms. split; [done|]. by apply Z.ltb_lt.
Qed.

(** Whatever is stored, every post of a freshly mounted component after
    the load has a time after the load. *)
Lemma loadPosts_after env stored q :
  q ∈ posts (loadPosts env stored initialState).1 ->
  exists ms, time q = Some (ISO ms) /\ loadNow env < ms.
Proof.
  unfold loadPosts. destruct stored as [t|]; simpl.
  - destruct (nonEmpty t); simpl.
    + destruct (tryLoad env t) as [e|ps] eqn:Ht; simpl.
      * intros Hq. by apply elem_of_nil in Hq.
      * by apply (tryLoad_after env t).
    + intros Hq. by apply elem_of_nil in Hq.
  - intros Hq. by apply elem_of_nil in Hq.
Qed.

(** ** A run of ticks *)

(** A property of posts that raising the flag does not break holds of
    every post a run of ticks announces, if it holds of the posts the run
    starts with. *)
Lemma runTicks_announced (P : Post -> Prop) envs ps w :
  (forall p, P p -> P (withNotified true p)) ->
  (forall p, p ∈ ps -> P p) ->
  announced (later w) = [] ->
  forall q, q ∈ announced (out (runTicks envs ps w).2) ->
            q ∈ announced (out w) \/ P q.
Proof.
  intros Hflag. revert ps w.
  induction envs as [|env envs IH]; intros ps w HP Hl q; simpl; [by left|].
  pose proof (checkAlarms_pointwise env ps w) as HF.
  destruct (checkAlarms_out env ps w) as (new & Hout & _ & Hnew & _).
  pose proof (checkAlarms_later env ps w Hl) as Hl'.
  destruct (checkAlarms env ps w) as [ps' w']. simpl in *.
  intros Hq. apply IH in Hq.
  - destruct Hq as [Hq|Hq]; [|by right]. simpl in Hq.
    rewrite Hout, !announced_app, Hl', app_nil_r in Hq.
    apply elem_of_app in Hq as [Hq|Hq]; [by left|].
    right. apply HP. by apply Hnew.
  - intros p' Hp'. apply list_elem_of_lookup in Hp' as [k Hk].
    destruct (Forall2_lookup_r _ _ _ _ _ HF Hk) as (p & Hp & Hrel).
    apply list_elem_of_lookup_2 in Hp.
    destruct Hrel as [->| ->]; auto.
  - done.
Qed.

(** C3, as the code has it.  A post whose time is at or before the load
    is not among the posts the load sets, whatever the store holds: after
    the load it is in neither of the two views, at any later moment, and
    no run of ticks over the loaded posts announces it. *)
Theorem loadPosts_drops_past env stored r t :
  getTime r = Some t -> t <= loadNow env ->
  let ps := posts (loadPosts env stored initialState).1 in
  (forall q, q ∈ ps -> time q <> time r /\ ~ Loaded r q)
  /\ (forall now' q, q ∈ upcomingPosts now' ps \/ q ∈ pastPosts now' ps ->
        time q <> time r)
  /\ (forall envs shown q,
        q ∈ announced (out (runTicks envs ps (startTick shown)).2) ->
        time q <> time r).
Proof.
  intros Hr Ht ps.
  assert (Hne : forall q,
            (exists ms, time q = Some (ISO ms) /\ loadNow env < ms) ->
            time q <> time r).
  { intros q (ms & Hq & Hms) Heq. unfold getTime in Hr. rewrite <- Heq, Hq in Hr.
    injection Hr as ->. lia. }
  split; [|split].
  - intros q Hq. apply (loadPosts_after env stored), Hne in Hq.
    split; [done|]. by intros ([= _ _ ?] & _).
  - intros now' q [Hq|Hq]; apply list_elem_of_filter in Hq as [_ Hq];
      by apply Hne, (loadPosts_after env stored).
  - intros envs shown q Hq. apply Hne.
    apply (runTicks_announced
             (fun q => exists ms, time q = Some (ISO ms) /\ loadNow env < ms))
      in Hq as [Hq|Hq]; try done.
    + by apply elem_of_nil in Hq.
    + intros p Hp. by apply (loadPosts_after env stored).
Qed.

Lemma loadPosts_drops_past_witness :
  let ps := posts (loadPosts atNoon (Some (ArrayText [Some stale; Some release]))
                             initialState).1 in
  (forall q, q ∈ ps -> time q <> time stale /\ ~ Loaded stale q)
  /\ (forall now' q, q ∈ upcomingPosts now' ps \/ q ∈ pastPosts now' ps ->
        time q <> time stale)
  /\ (forall envs shown q,
        q ∈ announced (out (runTicks envs ps (startTick shown)).2) ->
        time q <> time stale).
Proof.
  apply (loadPosts_drops_past atNoon _ stale (noon - 300000)).
  - reflexivity.
  - vm_compute. discriminate.
Defined.

(** Counterexample to the last part of C3 as stated: the post five
    minutes past is stored and its time is not after [noon], yet after the
    load the past view is empty, then and five minutes later. *)
Lemma loadPosts_past_view_empty :
  isNotAfter noon stale = true
  /\ pastPosts noon
       (posts (loadPosts atNoon (Some (ArrayText [Some stale])) initialState).1) = []
  /\ pastPosts (noon + 300000)
       (posts (loadPosts atNoon (Some (ArrayText [Some stale])) initialState).1) = [].
Proof. split; [|split]; reflexivity. Qed.

Lemma Forall2_Loaded_core rs qs : Forall2 Loaded rs qs -> map core qs = map core rs.
Proof.
  induction 1 as [|r q rs qs (Hc & _) _ IH]; simpl; [done|]. by rewrite Hc, IH.
Qed.

(** C6, as the code has it.  Saving a list of posts and loading it back
    gives, in ascending order of time, the posts of the list whose time is
    a date after the load, each with the [id], [text] and [time] it had
    and with [notified] false; the others are not loaded. *)
Theorem save_load_keeps_upcoming env ps :
  let loaded := posts (loadPosts env (savePosts ps) initialState).1 in
  map core loaded ≡ₚ map core (upcomingPosts (loadNow env) ps)
  /\ (forall p, p ∈ ps -> isAfter (loadNow env) p = true ->
        exists q, q ∈ loaded
                  /\ id q = id p /\ text q = text p /\ time q = time p)
  /\ Forall (fun q => notified q = Some false) loaded
  /\ Sorted (fun a b => timeKey a <= timeKey b) loaded.
Proof.
  intros loaded. subst loaded. unfold loadPosts, savePosts, JSON_stringify. simpl.
  destruct (tryLoad_records env ps) as (kept & -> & HF). simpl.
  split; [|split; [|split]].
  - rewrite sortByTime_Permutation. by rewrite (Forall2_Loaded_core _ _ HF).
  - intros p Hp Ha.
    assert (Hu : p ∈ upcomingPosts (loadNow env) ps)
      by by apply list_elem_of_filter.
    apply list_elem_of_lookup in Hu as [k Hk].
    destruct (Forall2_lookup_l _ _ _ _ _ HF Hk) as (q & Hq & ([= ? ? ?] & _)).
    exists q. split; [|done]. rewrite sortByTime_Permutation.
    by eapply list_elem_of_lookup_2.
  - rewrite sortByTime_Permutation. apply list.Forall_forall. intros q Hq.
    apply list_elem_of_lookup in Hq as [k Hk].
    destruct (Forall2_lookup_r _ _ _ _ _ HF Hk) as (r & _ & (_ & Hn & _)).
    done.
  - apply sortByTime_Sorted.
Qed.

(** Counterexample to C6 as stated: a post whose time has passed when
    the list is loaded is saved with the others and does not come
    back. *)
Lemma save_load_loses_stale :
  stale ∈ [stale; release]
  /\ posts (loadPosts atNoon (savePosts [stale; release]) initialState).1 = [release]
  /\ core stale <> core release.
Proof.
  split; [|split]; [apply elem_of_cons; by left|reflexivity|discriminate].
Qed.

(** ** The form *)

Lemma trimStart_nil s :
  trimStart s = [] <-> Forall (fun c => isWhiteSpace c = true) s.
Proof.
  induction s as [|c s IH]; simpl; [by split; [constructor|]|].
  destruct (isWhiteSpace c) eqn:Hc.
  - rewrite IH. split; [by constructor|by inversion 1].
  - split; [discriminate|]. inversion 1; congruence.
Qed.

Lemma trimStart_head s c s' : trimStart s = c :: s' -> isWhiteSpace c = false.
Proof.
  induction s as [|a s IH]; simpl; [discriminate|].
  destruct (isWhiteSpace a) eqn:Ha; [done|]. by intros [= <- _].
Qed.

(** [input.trim()] is empty exactly when the input is empty or holds
    white space only. *)
Lemma trim_nil s : trim s = [] <-> Forall (fun c => isWhiteSpace c = true) s.
Proof.
  rewrite <- trimStart_nil. unfold trim, trimEnd. split.
  - intros H. apply (f_equal (@rev N)) in H. rewrite rev_involutive in H.
    simpl in H. apply trimStart_nil in H. apply Forall_rev in H.
    rewrite rev_involutive in H.
    destruct (trimStart s) as [|c s'] eqn:Hs; [done|].
    apply trimStart_head in Hs. inversion H; congruence.
  - by intros ->.
Qed.

(** The three tests of [handleSubmit]: blank text, no time, or a time
    before the clock each end it with one error toast and the state as it
    was. *)
Lemma handleSubmit_rejects env st :
  Forall (fun c => isWhiteSpace c = true) (input st)
  \/ formTime st = None
  \/ (exists t, formTime st = Some t /\ t < submitNow env) ->
  exists msg, handleSubmit env st = (st, [ToastError msg]).
Proof.
  intros H. unfold handleSubmit.
  destruct (trim (input st)) as [|c s] eqn:Ht; simpl; [eauto|].
  destruct H as [H|[H|(t & H & Hlt)]].
  - apply trim_nil in H. congruence.
  - rewrite H. eauto.
  - rewrite H. apply Z.ltb_lt in Hlt. rewrite Hlt. eauto.
Qed.

(** Otherwise the submission goes through, a time equal to the clock
    included: the post made or edited has [notified] false. *)
Lemma handleSubmit_accepts env st t :
  ~ Forall (fun c => isWhiteSpace c = true) (input st) ->
  formTime st = Some t -> submitNow env <= t ->
  exists msg,
    (handleSubmit env st).2 = [ToastSuccess msg]
    /\ Forall2 (fun p p' => p' = p \/
                  (id p = editingPostId st /\ p' = edited (input st) t p))
         (if truthy (editingPostId st) then posts st
          else mkPost (Some (uuidv4 env)) (Some (input st)) (Some (ISO t)) (Some false)
                      (Some (pickColor (randomColor env))) :: posts st)
         (posts (handleSubmit env st).1).
Proof.
  intros Hws Ht Hle. unfold handleSubmit.
  destruct (trim (input st)) as [|c s] eqn:Htr; simpl.
  { exfalso. by apply Hws, trim_nil. }
  rewrite Ht. apply Z.ltb_ge in Hle. rewrite Hle.
  destruct (truthy (editingPostId st)); simpl; eexists; (split; [done|]).
  - induction (posts st) as [|p l IH]; simpl; constructor; [|done].
    case_bool_decide; auto.
  - apply Forall2_same_length_lookup_2; [done|].
    intros k p p' H1 H2. left. congruence.
Qed.

(** C5 at a time equal to the clock: the third test compares with [<], so
    the submission is not rejected; the post is made and the success
    toast shown. *)
Theorem handleSubmit_accepts_time_equal_now :
  let st := mkState (js "Ship release") (Some noon) [stale] None false in
  formTime st = Some (submitNow submitAtNoon)
  /\ handleSubmit submitAtNoon st
     = (mkState [] None
          [ mkPost (Some (js "uuid-1")) (Some (js "Ship release"))
                   (Some (ISO noon)) (Some false) (Some (js "bg-amber-500"));
            stale ]
          None false,
        [ToastSuccess "Post scheduled successfully"])
  /\ upcomingPosts noon (posts (handleSubmit submitAtNoon st).1) = [].
Proof. split; [|split]; reflexivity. Qed.

(** ** The flag and the tab *)

(** A due reminder completes whatever the sound does: with or without
    the audio element, whatever [play()] returns and whether the tab is
    visible, the post comes back flagged and its id is in the ledger. *)
Lemma checkPost_completes env p w :
  Due env (shownToastIds w) p ->
  (checkPost env p w).1 = withNotified true p
  /\ id p ∈ shownToastIds (checkPost env p w).2
  /\ (alarmSound env = true ->
      exists tr, out (checkPost env p w).2 = out w ++ tr /\ AudioPlay ∈ tr).
Proof.
  intros HD. rewrite (checkPost_due _ _ _ HD). simpl.
  split; [done|]. split.
  - apply elem_of_union. left. by apply elem_of_singleton.
  - intros Ha. eexists. split; [done|]. unfold reminderOut. rewrite Ha.
    simpl. do 4 (apply elem_of_cons; right). apply elem_of_cons. by left.
Qed.

(** [checkAlarms] tests the ledger and does not read the flag.  At a post
    whose flag is raised while its id is not in the ledger, a state the
    component does not get into, it announces the post. *)
Theorem checkAlarms_announces_flagged :
  notified flagged = Some true
  /\ out (checkAlarms visibleTab [flagged] (startTick ∅)).2
     = [LedgerAdd (id flagged); AudioPause; AudioRewind;
        ToastCustom flagged; AudioPlay]
  /\ announced (out (checkAlarms visibleTab [flagged] (startTick ∅)).2) = [flagged].
Proof. split; [|split]; reflexivity. Qed.

(** C7 in a hidden tab: [checkAlarms] does not read the visibility and
    calls [play()]; the rejection is caught, the post is flagged and its
    id is in the ledger. *)
Theorem checkAlarms_plays_in_hidden_tab :
  visible hiddenTab = false
  /\ out (checkAlarms hiddenTab [release] (startTick ∅)).2
     = [LedgerAdd (id release); AudioPause; AudioRewind;
        ToastCustom release; AudioPlay]
  /\ later (checkAlarms hiddenTab [release] (startTick ∅)).2
     = [ConsoleWarn "Audio playback prevented"]
  /\ (checkAlarms hiddenTab [release] (startTick ∅)).1 = [withNotified true release]
  /\ id release ∈ shownToastIds (checkAlarms hiddenTab [release] (startTick ∅)).2.
Proof.
  split; [|split; [|split; [|split]]]; reflexivity.
Qed.

(** The older loop does what the two claims say: a raised flag keeps the
    post from being announced, and in a hidden tab the sound is not
    played while the post is still flagged. *)
Lemma legacy_flag_blocks env p w :
  notified p = Some true -> Legacy.checkPost env p w = (inr p, w).
Proof.
  intros H. unfold Legacy.checkPost, Legacy.notNotified. rewrite H.
  by rewrite andb_false_r.
Qed.

Lemma legacy_hidden_tab_silent env p w :
  visible env = false ->
  minutesDiff env p = Some 1 -> Legacy.notNotified p = true ->
  exists tr,
    Legacy.checkPost env p w
      = (inr (withNotified true p),
         mkTick (shownToastIds w) (out w ++ ToastPlain p :: tr) (later w) (plays w))
    /\ AudioPlay ∉ tr.
Proof.
  intros Hv Hm Hn. unfold Legacy.checkPost, Legacy.ring. rewrite Hm, Hn, Hv.
  rewrite bool_decide_eq_true_2 by done. simpl.
  unfold bind, emit, ret. simpl. destruct (alarmSound env); simpl.
  - exists [AudioPause; AudioRewind; AudioLoad;
            ConsoleWarn "🚫 Tab not visible. Alarm skipped."].
    split.
    + rewrite <- !app_assoc. reflexivity.
    + intros H. repeat (apply elem_of_cons in H as [H|H]; [discriminate|]).
      by apply elem_of_nil in H.
  - exists []. split; [done|]. intros H. by apply elem_of_nil in H.
Qed.

Lemma legacy_tick_flagged env (l : list Post) w :
  Forall (fun p => notified p = Some true) l -> Legacy.tick env l w = (inr l, w).
Proof.
  unfold Legacy.tick. induction 1 as [|p l Hp _ IH]; simpl; [done|].
  unfold bind. by rewrite (legacy_flag_blocks env p w Hp), IH.
Qed.

(** ** Worked scenarios *)

Example trim_spaces : trim (js "  Ship it 	") = js "Ship it".
Proof. reflexivity. Qed.

(** A post due a hundred seconds after [noon]: the tick at 31 s (69 s
    left) announces it, the tick at 61 s (39 s left) does not. *)
Example one_reminder_per_post :
  let post := mkPost (Some (js "p1")) (Some (js "Ship release"))
                     (Some (ISO (noon + 100000))) (Some false)
                     (Some (js "bg-pink-500")) in
  let ticks := [mkTickEnv (noon + 31000) true true (fun _ => Fulfilled);
                mkTickEnv (noon + 61000) true true (fun _ => Fulfilled)] in
  (runTicks ticks [post] (startTick ∅)).1 = [withNotified true post]
  /\ announced (out (runTicks ticks [post] (startTick ∅)).2) = [post].
Proof. split; reflexivity. Qed.

(** A post made forty-five seconds ahead is never announced: no tick
    sees it with a whole minute left. *)
Example short_notice_never_announced :
  let post := mkPost (Some (js "p1")) (Some (js "Soon"))
                     (Some (ISO (noon + 45000))) (Some false)
                     (Some (js "bg-pink-500")) in
  let ticks := [mkTickEnv noon true true (fun _ => Fulfilled);
                mkTickEnv (noon + 30000) true true (fun _ => Fulfilled);
                mkTickEnv (noon + 60000) true true (fun _ => Fulfilled)] in
  runTicks ticks [post] (startTick ∅)
  = ([post], startTick ∅).
Proof. reflexivity. Qed.

(** * Further properties *)

(** ** The two views *)

Lemma isAfter_spec now p :
  isAfter now p = true <-> exists t, getTime p = Some t /\ now < t.
Proof.
  unfold isAfter. destruct (getTime p) as [t|].
  - rewrite Z.ltb_lt. split; [eauto|]. by intros (t' & [= <-] & ?).
  - split; [discriminate|]. by intros (t' & [=] & _).
Qed.

Lemma isNotAfter_spec now p :
  isNotAfter now p = true <-> exists t, getTime p = Some t /\ t <= now.
Proof.
  unfold isNotAfter. destruct (getTime p) as [t|].
  - rewrite Z.leb_le. split; [eauto|]. by intros (t' & [= <-] & ?).
  - split; [discriminate|]. by intros (t' & [=] & _).
Qed.

(** X1.  The upcoming view holds the posts whose time is a date after
    [now], the past view those whose time is a date at or before [now],
    each in the order of the list.  No post is in both, and together they
    hold, up to the order, exactly the posts whose time is a date: a post
    whose time is not a date is shown in neither view. *)
Theorem views_partition now (ps : list Post) :
  (forall p, p ∈ upcomingPosts now ps <->
             p ∈ ps /\ exists t, getTime p = Some t /\ now < t)
  /\ (forall p, p ∈ pastPosts now ps <->
                p ∈ ps /\ exists t, getTime p = Some t /\ t <= now)
  /\ (forall p, ~ (p ∈ upcomingPosts now ps /\ p ∈ pastPosts now ps))
  /\ (forall p, getTime p = None ->
                (p ∉ upcomingPosts now ps) /\ (p ∉ pastPosts now ps))
  /\ upcomingPosts now ps ++ pastPosts now ps
       ≡ₚ filter (fun p => is_Some (getTime p)) ps
  /\ upcomingPosts now ps `sublist_of` ps
  /\ pastPosts now ps `sublist_of` ps.
Proof.
  assert (Hu : forall p, p ∈ upcomingPosts now ps <->
             p ∈ ps /\ exists t, getTime p = Some t /\ now < t).
  { intros p. unfold upcomingPosts. rewrite list_elem_of_filter, isAfter_spec. tauto. }
  assert (Hp : forall p, p ∈ pastPosts now ps <->
                p ∈ ps /\ exists t, getTime p = Some t /\ t <= now).
  { intros p. unfold pastPosts. rewrite list_elem_of_filter, isNotAfter_spec. tauto. }
  split; [done|]. split; [done|]. split; [|split; [|split; [|split]]].
  - intros p [H1 H2]. apply Hu in H1 as (_ & t & Ht & H1).
    apply Hp in H2 as (_ & t' & Ht' & H2). rewrite Ht in Ht'.
    injection Ht' as <-. lia.
  - intros p Hn. split; intros H; [apply Hu in H|apply Hp in H];
      destruct H as (_ & t & Ht & _); congruence.
  - clear Hu Hp. unfold upcomingPosts, pastPosts.
    induction ps as [|p ps IH]; [done|]. rewrite !filter_cons.
    destruct (decide (isAfter now p = true)) as [Ha|Ha];
      destruct (decide (isNotAfter now p = true)) as [Hb|Hb];
      destruct (decide (is_Some (getTime p))) as [Hs|Hs];
      rewrite ?isAfter_spec, ?isNotAfter_spec in *.
    + destruct Ha as (t & Ht & ?), Hb as (t' & Ht' & ?).
      rewrite Ht in Ht'. injection Ht' as <-. lia.
    + destruct Ha as (t & Ht & ?). destruct Hs. rewrite Ht. eauto.
    + simpl. by rewrite IH.
    + destruct Ha as (t & Ht & ?). destruct Hs. rewrite Ht. eauto.
    + rewrite <- Permutation_middle. by rewrite IH.
    + destruct Hb as (t & Ht & ?). destruct Hs. rewrite Ht. eauto.
    + destruct Hs as [t Ht]. destruct (Z.lt_ge_cases now t).
      * destruct Ha. eauto.
      * destruct Hb. eauto.
    + done.
  - apply sublist_filter.
  - apply sublist_filter.
Qed.

Lemma filter_sublist_impl {A} (P Q : A -> Prop)
    `{!forall x, Decision (P x)} `{!forall x, Decision (Q x)} (l : list A) :
  (forall x, P x -> Q x) -> filter P l `sublist_of` filter Q l.
Proof.
  intros HPQ. induction l as [|x l IH]; [done|]. rewrite !filter_cons.
  destruct (decide (P x)) as [HP|HP]; destruct (decide (Q x)) as [HQ|HQ].
  - by apply sublist_skip.
  - destruct HQ. auto.
  - by apply sublist_cons.
  - done.
Qed.

(** X2.  As time goes by posts only move from the upcoming view to the
    past view: at a later moment the past view has kept every post it had
    and the upcoming view has gained none. *)
Theorem views_monotone now now' (ps : list Post) :
  now <= now' ->
  pastPosts now ps `sublist_of` pastPosts now' ps
  /\ upcomingPosts now' ps `sublist_of` upcomingPosts now ps.
Proof.
  intros Hle. split; apply filter_sublist_impl; intros p.
  - rewrite !isNotAfter_spec. intros (t & Ht & ?). exists t. split; [done|lia].
  - rewrite !isAfter_spec. intros (t & Ht & ?). exists t. split; [done|lia].
Qed.

Lemma views_monotone_witness :
  pastPosts noon [stale; release] `sublist_of` pastPosts (noon + 90000) [stale; release]
  /\ upcomingPosts (noon + 90000) [stale; release]
       `sublist_of` upcomingPosts noon [stale; release].
Proof. apply views_monotone. lia. Defined.

(** ** Sessions of ticks *)

(** Case analysis on the test of the callback of [checkAlarms]. *)
Ltac tick_case env w p HD :=
  destruct (Due_dec env (shownToastIds w) p) as [HD|HD];
  [rewrite (checkPost_due env p w HD)|rewrite (checkPost_not_due env p w HD)].

Lemma Tidy_startTick shown : Tidy (startTick shown).
Proof.
  repeat split; simpl; [constructor|]. intros q Hq. by apply elem_of_nil in Hq.
Qed.

(** One tick and the promise reactions after it. *)
Lemma tick_step env ps w :
  Tidy w ->
  let w' := settle (checkAlarms env ps w).2 in
  Tidy w'
  /\ (forall i, i ∈ shownToastIds w -> i ∈ shownToastIds w')
  /\ (forall q, q ∈ announced (out w) -> q ∈ announced (out w'))
  /\ (forall q, q ∈ announced (out w') ->
        q ∈ announced (out w)
        \/ (q ∈ ps /\ (id q ∉ shownToastIds w) /\ minutesDiff env q = Some 1)).
Proof.
  intros (Hnd & Hl & Hin) w'. subst w'.
  destruct (checkAlarms_out env ps w) as (new & Hout & Hnew & Hq & Hmono).
  pose proof (checkAlarms_later env ps w Hl) as Hl'.
  pose proof (checkAlarms_ledger env ps w) as Hled.
  destruct (checkAlarms env ps w) as [ps' w1]. unfold Tidy. simpl in *.
  assert (Hann : announced (out w1 ++ later w1) = announced (out w) ++ announced new)
    by by rewrite Hout, !announced_app, Hl', app_nil_r.
  rewrite Hann. split; [split; [|split]|split; [|split]].
  - rewrite map_app. apply NoDup_app. split; [done|]. split; [|done].
    intros i Hi Hi'. apply list_elem_of_fmap in Hi as (q & -> & Hq1).
    apply list_elem_of_fmap in Hi' as (q' & Heq & Hq2).
    destruct (Hq q' Hq2) as (_ & Hn & _). apply Hn. rewrite <- Heq. by apply Hin.
  - done.
  - intros q Hqq. apply elem_of_app in Hqq as [Hqq|Hqq].
    + by apply Hmono, Hin.
    + destruct (Hq q Hqq) as (Hps & _ & Hm). apply Hled. right. by exists q.
  - done.
  - intros q Hqq. apply elem_of_app. by left.
  - intros q Hqq. apply elem_of_app in Hqq as [Hqq|Hqq]; [by left|].
    right. by apply Hq.
Qed.

Lemma runSession_inv steps w :
  Tidy w ->
  Tidy (runSession steps w)
  /\ (forall i, i ∈ shownToastIds w -> i ∈ shownToastIds (runSession steps w))
  /\ (forall q, q ∈ announced (out (runSession steps w)) ->
        q ∈ announced (out w)
        \/ ((id q ∉ shownToastIds w)
            /\ exists env ps, (env, ps) ∈ steps /\ q ∈ ps
                              /\ minutesDiff env q = Some 1)).
Proof.
  revert w. induction steps as [|[env ps] steps IH]; intros w HT; simpl.
  - split; [done|]. split; [done|]. by left.
  - destruct (tick_step env ps w HT) as (HT' & Hmono & _ & Hnew).
    destruct (IH _ HT') as (HT'' & Hmono' & Hnew').
    split; [done|]. split; [by auto|].
    intros q Hq. apply Hnew' in Hq as [Hq|(Hn & env' & ps' & Hin & Hq & Hm)].
    + apply Hnew in Hq as [Hq|(Hq & Hn & Hm)]; [by left|].
      right. split; [done|]. exists env, ps. split; [|done].
      apply elem_of_cons. by left.
    + right. split; [by auto|]. exists env', ps'. split; [|done].
      apply elem_of_cons. by right.
Qed.

(** X3.  Over a whole session, whatever happens to the posts between the
    ticks (edits that re-arm a post included), no two reminders are for
    the same id, and no reminder is for an id the ledger held when the
    session began; the ledger never loses an id. *)
Theorem session_one_reminder_per_id (steps : list (TickEnv * list Post))
    (shown : gset (option JsString)) :
  let w := runSession steps (startTick shown) in
  NoDup (map id (announced (out w)))
  /\ (forall q, q ∈ announced (out w) -> (id q ∉ shown) /\ id q ∈ shownToastIds w)
  /\ (forall i, i ∈ shown -> i ∈ shownToastIds w).
Proof.
  intros w. subst w.
  destruct (runSession_inv steps _ (Tidy_startTick shown))
    as ((Hnd & _ & Hin) & Hmono & Hnew).
  split; [done|]. split; [|done].
  intros q Hq. split; [|by apply Hin].
  apply Hnew in Hq as [Hq|(Hn & _)]; [by apply elem_of_nil in Hq|done].
Qed.

(** X4.  Every reminder of a session was raised by a tick that found the
    post in the list with at least 60 and less than 120 seconds left. *)
Theorem session_reminder_window (steps : list (TickEnv * list Post))
    (shown : gset (option JsString)) q :
  q ∈ announced (out (runSession steps (startTick shown))) ->
  exists env ps t,
    (env, ps) ∈ steps /\ q ∈ ps /\ time q = Some (ISO t)
    /\ 60000 <= t - now env < 120000.
Proof.
  intros Hq.
  destruct (runSession_inv steps _ (Tidy_startTick shown)) as (_ & _ & Hnew).
  apply Hnew in Hq as [Hq|(_ & env & ps & Hin & Hq & Hm)];
    [by apply elem_of_nil in Hq|].
  apply minutesDiff_window in Hm as (t & Ht & Hw).
  exists env, ps, t. repeat split; try done; try lia.
  unfold getTime in Ht. by destruct (time q) as [[?|]|]; simplify_eq.
Qed.

Lemma session_reminder_window_witness :
  exists env ps t,
    (env, ps) ∈ [(visibleTab, [release])] /\ release ∈ ps
    /\ time release = Some (ISO t) /\ 60000 <= t - now env < 120000.
Proof.
  apply (session_reminder_window [(visibleTab, [release])] ∅ release).
  vm_compute. apply elem_of_cons. by left.
Defined.

(** X5.  A post made less than a minute ahead never gets a reminder: if
    every tick of the session comes at or after a moment [c] at which less
    than 60 seconds were left, no tick announces it. *)
Theorem short_notice_never_reminded (steps : list (TickEnv * list Post))
    (shown : gset (option JsString)) q t c :
  time q = Some (ISO t) -> t - c < 60000 ->
  (forall env ps, (env, ps) ∈ steps -> c <= now env) ->
  q ∉ announced (out (runSession steps (startTick shown))).
Proof.
  intros Ht Hc Hsteps Hq.
  destruct (runSession_inv steps _ (Tidy_startTick shown)) as (_ & _ & Hnew).
  apply Hnew in Hq as [Hq|(_ & env & ps & Hin & _ & Hm)];
    [by apply elem_of_nil in Hq|].
  apply minutesDiff_window in Hm as (t' & Ht' & Hw).
  unfold getTime in Ht'. rewrite Ht in Ht'. injection Ht' as <-.
  specialize (Hsteps env ps Hin). lia.
Qed.

Lemma short_notice_never_reminded_witness :
  soon ∉ announced (out (runSession [(visibleTab, [soon; release]);
                                     (hiddenTab, [soon])] (startTick ∅))).
Proof.
  apply (short_notice_never_reminded _ _ soon (noon + 45000) noon).
  - reflexivity.
  - vm_compute. reflexivity.
  - intros env ps Hin.
    apply elem_of_cons in Hin as [[= -> _]|Hin]; [vm_compute; discriminate|].
    apply elem_of_cons in Hin as [[= -> _]|Hin]; [vm_compute; discriminate|].
    by apply elem_of_nil in Hin.
Defined.

(** ** The interval over unchanged posts *)

Lemma checkAlarms_pointwise_due env l w :
  Forall2 (fun p p' => p' = p
                       \/ (p' = withNotified true p /\ minutesDiff env p = Some 1))
          l (checkAlarms env l w).1.
Proof.
  revert w. induction l as [|p l IH]; intros w.
  - rewrite checkAlarms_nil. constructor.
  - rewrite checkAlarms_cons. tick_case env w p HD.
    + specialize (IH (fired env p w)).
      destruct (checkAlarms env l (fired env p w)). constructor; [|done].
      right. split; [done|]. apply minutesDiff_one, HD.
    + specialize (IH w). destruct (checkAlarms env l w). constructor; auto.
Qed.

(** A tick announces the post that is one minute away, when its id is
    not in the ledger and no other post has it. *)
Lemma checkAlarms_announces env ps w p :
  p ∈ ps -> OnlyOne p ps -> id p ∉ shownToastIds w ->
  minutesDiff env p = Some 1 ->
  p ∈ announced (out (checkAlarms env ps w).2).
Proof.
  revert w. induction ps as [|q l IH]; intros w Hin Hone Hn Hm.
  - by apply elem_of_nil in Hin.
  - rewrite checkAlarms_cons. destruct (decide (q = p)) as [->|Hqp].
    + assert (HD : Due env (shownToastIds w) p)
        by (split; [by apply minutesDiff_one|done]).
      rewrite (checkPost_due env p w HD).
      destruct (checkAlarms_out env l (fired env p w)) as (new & Hout & _).
      destruct (checkAlarms env l (fired env p w)) as [l' w2]. simpl in *.
      rewrite Hout, !announced_app, announced_reminderOut.
      apply elem_of_app. left. apply elem_of_app. right.
      apply elem_of_cons. by left.
    + apply elem_of_cons in Hin as [Hin|Hin]; [congruence|].
      assert (Hid : id q <> id p).
      { intros Heq. apply Hqp, Hone; [apply elem_of_cons; by left|done]. }
      assert (Hone' : OnlyOne p l).
      { intros r Hr. apply Hone, elem_of_cons. by right. }
      tick_case env w q HD.
      * specialize (IH (fired env q w) Hin Hone').
        destruct (checkAlarms env l (fired env q w)) as [l' w2]. simpl in *.
        apply IH; [|done]. intros [Hi|Hi]%elem_of_union; [|done].
        apply elem_of_singleton in Hi. congruence.
      * specialize (IH w Hin Hone' Hn Hm).
        by destruct (checkAlarms env l w) as [l' w2].
Qed.

(** A tick that does not find the post one minute away leaves it as it
    is, unannounced, with its id still out of the ledger. *)
Lemma checkAlarms_waits env ps w p :
  p ∈ ps -> OnlyOne p ps -> id p ∉ shownToastIds w ->
  minutesDiff env p <> Some 1 ->
  p ∈ (checkAlarms env ps w).1
  /\ OnlyOne p (checkAlarms env ps w).1
  /\ id p ∉ shownToastIds (checkAlarms env ps w).2.
Proof.
  intros Hin Hone Hn Hm.
  pose proof (checkAlarms_pointwise_due env ps w) as HF.
  pose proof (checkAlarms_ledger env ps w (id p)) as Hled.
  destruct (checkAlarms env ps w) as [ps' w']. simpl in *.
  split; [|split].
  - apply list_elem_of_lookup in Hin as [k Hk].
    destruct (Forall2_lookup_l _ _ _ _ _ HF Hk) as (p' & Hk' & [->|[_ ?]]);
      [|done]. by eapply list_elem_of_lookup_2.
  - intros q' Hq' Hid. apply list_elem_of_lookup in Hq' as [k Hk].
    destruct (Forall2_lookup_r _ _ _ _ _ HF Hk) as (q & Hq & Hrel).
    apply list_elem_of_lookup_2 in Hq.
    destruct Hrel as [->|[-> Hmq]]; [by apply Hone|].
    simpl in Hid. rewrite (Hone q Hq Hid) in Hmq. done.
  - rewrite Hled. intros [?|(q & Hq & Hid & Hmq)]; [done|].
    rewrite (Hone q Hq Hid) in Hmq. done.
Qed.

Lemma runTicks_keeps_announced envs ps w q :
  announced (later w) = [] ->
  q ∈ announced (out w) -> q ∈ announced (out (runTicks envs ps w).2).
Proof.
  revert ps w. induction envs as [|env envs IH]; intros ps w Hl Hq; [done|].
  simpl. destruct (checkAlarms_out env ps w) as (new & Hout & _).
  pose proof (checkAlarms_later env ps w Hl) as Hl'.
  destruct (checkAlarms env ps w) as [ps' w']. simpl in *.
  apply IH; [done|]. simpl. rewrite Hout, !announced_app.
  apply elem_of_app. left. apply elem_of_app. by left.
Qed.

Lemma runTicks_finds envs ps w p k env :
  announced (later w) = [] ->
  p ∈ ps -> OnlyOne p ps -> id p ∉ shownToastIds w ->
  envs !! k = Some env -> minutesDiff env p = Some 1 ->
  p ∈ announced (out (runTicks envs ps w).2).
Proof.
  revert ps w k.
  induction envs as [|env0 envs IH]; intros ps w k Hl Hin Hone Hn Hk Hm;
    [done|].
  simpl. destruct (decide (minutesDiff env0 p = Some 1)) as [Hm0|Hm0].
  - pose proof (checkAlarms_announces env0 ps w p Hin Hone Hn Hm0) as Ha.
    pose proof (checkAlarms_later env0 ps w Hl) as Hl'.
    destruct (checkAlarms env0 ps w) as [ps' w']. simpl in *.
    apply runTicks_keeps_announced; [done|]. simpl.
    rewrite announced_app. apply elem_of_app. by left.
  - destruct k as [|k]; [simpl in Hk; congruence|]. simpl in Hk.
    destruct (checkAlarms_waits env0 ps w p Hin Hone Hn Hm0) as (Hin' & Hone' & Hn').
    destruct (checkAlarms env0 ps w) as [ps' w']. simpl in *.
    by apply (IH ps' (settle w') k).
Qed.

(** X6.  Over a run of ticks with the posts left alone, a post whose id
    is not in the ledger and is its alone gets its reminder if one of the
    ticks finds it one minute away. *)
Theorem runTicks_reminds (envs : list TickEnv) (ps : list Post)
    (shown : gset (option JsString)) p k env :
  p ∈ ps -> OnlyOne p ps -> id p ∉ shown ->
  envs !! k = Some env -> (exists t, getTime p = Some t /\ (t - now env) / 60000 = 1) ->
  p ∈ announced (out (runTicks envs ps (startTick shown)).2).
Proof.
  intros Hin Hone Hn Hk Hm. apply minutesDiff_one in Hm.
  by apply (runTicks_finds envs ps (startTick shown) p k env).
Qed.

Lemma runTicks_reminds_witness :
  release ∈ announced (out (runTicks threeTicks [stale; release] (startTick ∅)).2).
Proof.
  apply (runTicks_reminds threeTicks [stale; release] ∅ release 0
           (mkTickEnv noon true true (fun _ => Fulfilled))).
  - apply elem_of_cons. right. apply elem_of_cons. by left.
  - intros q Hq Hid.
    apply elem_of_cons in Hq as [->|Hq]; [discriminate Hid|].
    apply elem_of_cons in Hq as [->|Hq]; [done|]. by apply elem_of_nil in Hq.
  - apply not_elem_of_empty.
  - reflexivity.
  - exists (noon + 90000). split; reflexivity.
Defined.

Lemma runTicks_Tidy envs ps w : Tidy w -> Tidy (runTicks envs ps w).2.
Proof.
  revert ps w. induction envs as [|env envs IH]; intros ps w HT; [done|].
  simpl. destruct (tick_step env ps w HT) as (HT' & _).
  destruct (checkAlarms env ps w) as [ps' w']. by apply IH.
Qed.

Lemma regular_ticks_find (envs : list TickEnv) (ps : list Post) w p t now0 :
  (forall k env, envs !! k = Some env -> now env = now0 + 30000 * Z.of_nat k) ->
  announced (later w) = [] ->
  p ∈ ps -> OnlyOne p ps -> id p ∉ shownToastIds w ->
  time p = Some (ISO t) ->
  60000 <= t - now0 < 60000 + 30000 * Z.of_nat (length envs) ->
  p ∈ announced (out (runTicks envs ps w).2).
Proof.
  intros Hreg Hl Hin Hone Hn Ht Hw.
  set (d := t - now0 - 60000).
  pose proof (Z.div_mod d 30000 ltac:(lia)) as Hd.
  pose proof (Z.mod_pos_bound d 30000 ltac:(lia)) as Hr.
  assert (Hk0 : 0 <= d / 30000) by (apply Z.div_pos; lia).
  assert (Hk1 : d / 30000 < Z.of_nat (length envs))
    by (apply Z.div_lt_upper_bound; lia).
  destruct (lookup_lt_is_Some_2 envs (Z.to_nat (d / 30000))) as [env Henv];
    [lia|].
  apply (runTicks_finds envs ps _ p (Z.to_nat (d / 30000)) env); try done.
  apply minutesDiff_window. exists t. split.
  - unfold getTime. by rewrite Ht.
  - rewrite (Hreg _ _ Henv). rewrite Z2Nat.id by done. lia.
Qed.

(** X7.  With the interval ticking every thirty seconds from [now0] and
    the posts left alone, a post at least a minute ahead of the first
    tick, with an id of its own that is not in the ledger, gets its
    reminder before the ticks run out, and no id gets two. *)
Theorem thirty_second_timer_reminds (envs : list TickEnv) (ps : list Post)
    (shown : gset (option JsString)) p t now0 :
  (forall k env, envs !! k = Some env -> now env = now0 + 30000 * Z.of_nat k) ->
  p ∈ ps -> OnlyOne p ps -> id p ∉ shown ->
  time p = Some (ISO t) ->
  60000 <= t - now0 < 60000 + 30000 * Z.of_nat (length envs) ->
  p ∈ announced (out (runTicks envs ps (startTick shown)).2)
  /\ NoDup (map id (announced (out (runTicks envs ps (startTick shown)).2))).
Proof.
  intros Hreg Hin Hone Hn Ht Hw. split.
  - by apply (regular_ticks_find envs ps (startTick shown) p t now0).
  - apply runTicks_Tidy, Tidy_startTick.
Qed.

Lemma thirty_second_timer_reminds_witness :
  release ∈ announced (out (runTicks threeTicks [stale; release] (startTick ∅)).2)
  /\ NoDup (map id (announced
                      (out (runTicks threeTicks [stale; release] (startTick ∅)).2))).
Proof.
  apply (thirty_second_timer_reminds threeTicks [stale; release] ∅ release
           (noon + 90000) noon).
  - intros k env Hk.
    destruct k as [|[|[|k]]]; simpl in Hk; try discriminate;
      injection Hk as <-; vm_compute; reflexivity.
  - apply elem_of_cons. right. apply elem_of_cons. by left.
  - intros q Hq Hid.
    apply elem_of_cons in Hq as [->|Hq]; [discriminate Hid|].
    apply elem_of_cons in Hq as [->|Hq]; [done|]. by apply elem_of_nil in Hq.
  - apply not_elem_of_empty.
  - reflexivity.
  - vm_compute. split; [discriminate|reflexivity].
Defined.

(** ** Flags and ledger *)

Lemma FlagsInLedger_tick env ps w :
  FlagsInLedger ps (shownToastIds w) ->
  FlagsInLedger (checkAlarms env ps w).1 (shownToastIds (checkAlarms env ps w).2).
Proof.
  intros HF p' Hp' Hflag.
  pose proof (checkAlarms_pointwise_due env ps w) as HP.
  pose proof (checkAlarms_ledger env ps w (id p')) as Hled.
  destruct (checkAlarms env ps w) as [ps' w']. simpl in *.
  apply list_elem_of_lookup in Hp' as [k Hk].
  destruct (Forall2_lookup_r _ _ _ _ _ HP Hk) as (p & Hp & Hrel).
  apply list_elem_of_lookup_2 in Hp. apply Hled.
  destruct Hrel as [->|[-> Hm]].
  - left. by apply HF.
  - right. by exists p.
Qed.

(** X8.  The flags agree with the ledger in every state the component
    reaches: the load lowers every flag; a tick, a submission and a
    confirmed deletion keep the agreement, as does the ledger growing.  In
    such a state a tick announces no post whose flag is raised, although
    [checkAlarms] does not read the flag. *)
Theorem flags_agree_with_ledger :
  (forall env stored shown,
     FlagsInLedger (posts (loadPosts env stored initialState).1) shown)
  /\ (forall env ps w,
        FlagsInLedger ps (shownToastIds w) ->
        FlagsInLedger (checkAlarms env ps w).1
                      (shownToastIds (checkAlarms env ps w).2))
  /\ (forall env st shown,
        FlagsInLedger (posts st) shown ->
        FlagsInLedger (posts (handleSubmit env st).1) shown)
  /\ (forall d st shown,
        FlagsInLedger (captured d) shown ->
        FlagsInLedger (posts (confirmDelete d st).1) shown)
  /\ (forall ps (shown shown' : gset (option JsString)),
        shown ⊆ shown' -> FlagsInLedger ps shown -> FlagsInLedger ps shown')
  /\ (forall env ps (shown : gset (option JsString)) q,
        FlagsInLedger ps shown ->
        q ∈ announced (out (checkAlarms env ps (startTick shown)).2) ->
        flag q = false).
Proof.
  split; [|split; [|split; [|split; [|split]]]].
  - intros env stored shown p Hp Hflag. exfalso.
    assert (Hf : notified p = Some false).
    { revert Hp. unfold loadPosts. destruct stored as [t|]; simpl;
        [|intros H; by apply elem_of_nil in H].
      destruct (nonEmpty t); simpl; [|intros H; by apply elem_of_nil in H].
      unfold tryLoad. destruct (JSON_parse t) as [e|[|items]]; simpl;
        try (intros H; by apply elem_of_nil in H).
      destruct (items_records_or_null items) as [[rs ->]|Hnull].
      - destruct (withColors_records env 0 rs) as (cs & -> & HF). simpl.
        rewrite sortByTime_Permutation. intros Hp.
        apply list_elem_of_filter in Hp as [_ Hp].
        apply list_elem_of_lookup in Hp as [k Hk].
        by destruct (Forall2_lookup_r _ _ _ _ _ HF Hk) as (r & _ & _ & ? & _).
      - rewrite withColors_null by done. simpl.
        intros H; by apply elem_of_nil in H. }
    unfold flag in Hflag. by rewrite Hf in Hflag.
  - apply FlagsInLedger_tick.
  - intros env st shown HF p Hp Hflag. revert Hp. unfold handleSubmit.
    destruct (negb _); [intros Hp; by apply HF|].
    destruct (formTime st) as [t|]; [|intros Hp; by apply HF].
    destruct (t <? submitNow env); [intros Hp; by apply HF|].
    destruct (truthy (editingPostId st)); simpl.
    + intros Hp. apply list_elem_of_fmap in Hp as (q & -> & Hq).
      case_bool_decide; [done|by apply HF].
    + intros [->|Hp]%elem_of_cons; [done|by apply HF].
  - intros d st shown HF p Hp Hflag. simpl in Hp.
    apply list_elem_of_filter in Hp as [_ Hp]. by apply HF.
  - intros ps shown shown' Hsub HF p Hp Hflag. apply Hsub. by apply HF.
  - intros env ps shown q HF Hq.
    destruct (checkAlarms_out env ps (startTick shown))
      as (new & Hout & _ & Hnew & _).
    rewrite Hout in Hq. simpl in Hq.
    destruct (Hnew q Hq) as (Hin & Hn & _). simpl in Hn.
    destruct (flag q) eqn:Hflag; [|done]. exfalso. by apply Hn, HF.
Qed.




(** ** The form, once the three tests are passed *)

Lemma handleSubmit_passes env st t :
  ~ Forall (fun c => isWhiteSpace c = true) (input st) ->
  formTime st = Some t -> submitNow env <= t ->
  handleSubmit env st =
  if truthy (editingPostId st) then
    (mkState [] None
       (map (fun post => if bool_decide (id post = editingPostId st)
                         then edited (input st) t post else post) (posts st))
       None (isLoading st),
     [ToastSuccess "Post updated successfully"])
  else
    (mkState [] None
       (mkPost (Some (uuidv4 env)) (Some (input st)) (Some (ISO t)) (Some false)
               (Some (pickColor (randomColor env))) :: posts st)
       (editingPostId st) (isLoading st),
     [ToastSuccess "Post scheduled successfully"]).
Proof.
  intros Hws Ht Hle. unfold handleSubmit.
  destruct (trim (input st)) as [|c s] eqn:Htr; simpl.
  { exfalso. by apply Hws, trim_nil. }
  rewrite Ht. apply Z.ltb_ge in Hle. by rewrite Hle.
Qed.

Lemma handleSubmit_cases env st :
  (Forall (fun c => isWhiteSpace c = true) (input st)
   /\ handleSubmit env st = (st, [ToastError "Post content cannot be empty"]))
  \/ (~ Forall (fun c => isWhiteSpace c = true) (input st)
      /\ formTime st = None
      /\ handleSubmit env st = (st, [ToastError "Please select a date and time"]))
  \/ (~ Forall (fun c => isWhiteSpace c = true) (input st)
      /\ exists t, formTime st = Some t /\ t < submitNow env
         /\ handleSubmit env st
            = (st, [ToastError "Please select a future date and time"]))
  \/ (~ Forall (fun c => isWhiteSpace c = true) (input st)
      /\ exists t, formTime st = Some t /\ submitNow env <= t
         /\ exists msg, (handleSubmit env st).2 = [ToastSuccess msg]).
Proof.
  destruct (decide (Forall (fun c => isWhiteSpace c = true) (input st))) as [Hb|Hb].
  { left. split; [done|]. unfold handleSubmit.
    apply trim_nil in Hb. by rewrite Hb. }
  right. destruct (formTime st) as [t|] eqn:Ht.
  - destruct (Z.lt_ge_cases t (submitNow env)) as [Hlt|Hge].
    + right. left. split; [done|]. exists t. split; [done|]. split; [done|].
      unfold handleSubmit.
      destruct (trim (input st)) as [|c s] eqn:Htr;
        [exfalso; by apply Hb, trim_nil|].
      simpl. rewrite Ht. apply Z.ltb_lt in Hlt. by rewrite Hlt.
    + right. right. split; [done|]. exists t. split; [done|]. split; [done|].
      rewrite (handleSubmit_passes env st t Hb Ht Hge).
      destruct (truthy (editingPostId st)); simpl; eauto.
  - left. split; [done|]. split; [done|]. unfold handleSubmit.
    destruct (trim (input st)) as [|c s] eqn:Htr;
      [exfalso; by apply Hb, trim_nil|].
    simpl. by rewrite Ht.
Qed.

(** X9.  The form rejects a submission exactly when the text is blank,
    no time is chosen, or the chosen time is before the clock; it then
    shows one error toast, the one of the first test that fails, and
    leaves the whole state as it is.  Every other submission ends in one
    success toast. *)
Theorem handleSubmit_rejects_exactly env st :
  let blank := Forall (fun c => isWhiteSpace c = true) (input st) in
  let early := exists t, formTime st = Some t /\ t < submitNow env in
  ((exists msg, (handleSubmit env st).2 = [ToastError msg])
   <-> blank \/ formTime st = None \/ early)
  /\ (blank -> handleSubmit env st = (st, [ToastError "Post content cannot be empty"]))
  /\ (~ blank -> formTime st = None ->
      handleSubmit env st = (st, [ToastError "Please select a date and time"]))
  /\ (~ blank -> early ->
      handleSubmit env st = (st, [ToastError "Please select a future date and time"]))
  /\ (~ (blank \/ formTime st = None \/ early) ->
      exists msg, (handleSubmit env st).2 = [ToastSuccess msg]).
Proof.
  intros blank early. subst blank early.
  destruct (handleSubmit_cases env st)
    as [[Hb ->]|[(Hb & Hn & ->)|[(Hb & t & Ht & Hlt & ->)|(Hb & t & Ht & Hge & msg & Hmsg)]]].
  - split; [split; eauto|]. split; [done|]. split; [done|]. split; [done|].
    intros H. exfalso. apply H. by left.
  - split; [split; eauto|]. split; [done|]. split; [done|].
    split; [by intros _ (t & Ht & _); congruence|].
    intros H. exfalso. apply H. right. by left.
  - split; [split; eauto 6|]. split; [done|].
    split; [intros _ Hn; congruence|]. split; [done|].
    intros H. exfalso. apply H. right. right. eauto.
  - assert (Hno : ~ (Forall (fun c => isWhiteSpace c = true) (input st)
                     \/ formTime st = None
                     \/ exists t0, formTime st = Some t0 /\ t0 < submitNow env)).
    { intros [H|[H|(t0 & Ht0 & ?)]]; [done|congruence|].
      rewrite Ht in Ht0. injection Ht0 as <-. lia. }
    split; [split; [|done]|].
    + intros [m Hm]. rewrite Hmsg in Hm. discriminate.
    + split; [done|]. split; [intros _ Hn; congruence|].
      split; [intros _ H; exfalso; apply Hno; auto|]. eauto.
Qed.

(** X10.  A submission that passes the tests with no post under edit puts
    one new post at the head of the list and leaves the others as they
    are.  The new post has the id [uuidv4()] gave, the text as typed (not
    trimmed), the chosen time, the flag lowered and a colour of the
    palette; the form is cleared.  If the id is new to the list, ids that
    were different stay different. *)
Theorem handleSubmit_creates env st t :
  ~ Forall (fun c => isWhiteSpace c = true) (input st) ->
  formTime st = Some t -> submitNow env <= t ->
  truthy (editingPostId st) = false ->
  exists c,
    c ∈ COLORS
    /\ handleSubmit env st
       = (mkState [] None
            (mkPost (Some (uuidv4 env)) (Some (input st)) (Some (ISO t))
                    (Some false) (Some c) :: posts st)
            (editingPostId st) (isLoading st),
          [ToastSuccess "Post scheduled successfully"])
    /\ (Some (uuidv4 env) ∉ map id (posts st) -> NoDup (map id (posts st)) ->
        NoDup (map id (posts (handleSubmit env st).1)))
    /\ (submitNow env < t ->
        upcomingPosts (submitNow env) (posts (handleSubmit env st).1)
        = mkPost (Some (uuidv4 env)) (Some (input st)) (Some (ISO t))
                 (Some false) (Some c)
          :: upcomingPosts (submitNow env) (posts st)).
Proof.
  intros Hws Ht Hle He. rewrite (handleSubmit_passes env st t Hws Ht Hle), He.
  exists (pickColor (randomColor env)). split; [apply pickColor_COLORS|].
  split; [done|]. simpl. split.
  - intros Hfresh Hnd. by constructor.
  - intros Hlt. unfold upcomingPosts. rewrite filter_cons.
    rewrite decide_True; [done|]. apply isAfter_spec. by exists t.
Qed.

Lemma handleSubmit_creates_witness :
  exists c,
    c ∈ COLORS
    /\ handleSubmit submitAtNoon (mkState (js " Retro ") (Some (noon + 90000)) [stale] None false)
       = (mkState [] None
            (mkPost (Some (js "uuid-1")) (Some (js " Retro ")) (Some (ISO (noon + 90000)))
                    (Some false) (Some c) :: [stale])
            None false,
          [ToastSuccess "Post scheduled successfully"])
    /\ (Some (js "uuid-1") ∉ map id [stale] -> NoDup (map id [stale]) ->
        NoDup (map id (posts (handleSubmit submitAtNoon
                 (mkState (js " Retro ") (Some (noon + 90000)) [stale] None false)).1)))
    /\ (noon < noon + 90000 ->
        upcomingPosts noon (posts (handleSubmit submitAtNoon
                 (mkState (js " Retro ") (Some (noon + 90000)) [stale] None false)).1)
        = mkPost (Some (js "uuid-1")) (Some (js " Retro ")) (Some (ISO (noon + 90000)))
                 (Some false) (Some c)
          :: upcomingPosts noon [stale]).
Proof.
  apply (handleSubmit_creates submitAtNoon
           (mkState (js " Retro ") (Some (noon + 90000)) [stale] None false)
           (noon + 90000)).
  - simpl. intros H. inversion H as [|? ? _ H']. inversion H' as [|? ? Hc _].
    vm_compute in Hc. discriminate.
  - reflexivity.
  - vm_compute. discriminate.
  - reflexivity.
Defined.

(** X11.  A submission that passes the tests with a post under edit
    keeps the list as long as it was, with the same ids and colours in the
    same places; a post with the id under edit gets the typed text and the
    chosen time and has its flag lowered, every other post is left as it
    is.  When no post has that id nothing changes, and the success toast
    is shown all the same.  The form is cleared and the edit ended. *)
Theorem handleSubmit_updates env st t i :
  ~ Forall (fun c => isWhiteSpace c = true) (input st) ->
  formTime st = Some t -> submitNow env <= t ->
  editingPostId st = Some i -> i <> [] ->
  let st' := (handleSubmit env st).1 in
  (handleSubmit env st).2 = [ToastSuccess "Post updated successfully"]
  /\ input st' = [] /\ formTime st' = None /\ editingPostId st' = None
  /\ map id (posts st') = map id (posts st)
  /\ map color (posts st') = map color (posts st)
  /\ Forall2 (fun p p' =>
                if decide (id p = Some i)
                then text p' = Some (input st) /\ time p' = Some (ISO t)
                     /\ notified p' = Some false
                else p' = p)
             (posts st) (posts st')
  /\ (Some i ∉ map id (posts st) -> posts st' = posts st).
Proof.
  intros Hws Ht Hle He Hi st'. subst st'.
  rewrite (handleSubmit_passes env st t Hws Ht Hle), He.
  assert (Htr : truthy (Some i) = true) by by destruct i.
  rewrite Htr. simpl. repeat split.
  - induction (posts st) as [|p l IH]; simpl; [done|].
    f_equal; [|done]. by case_bool_decide.
  - induction (posts st) as [|p l IH]; simpl; [done|].
    f_equal; [|done]. by case_bool_decide.
  - induction (posts st) as [|p l IH]; simpl; constructor; [|done].
    case_bool_decide; case_decide; done.
  - intros Hn. induction (posts st) as [|p l IH]; simpl; [done|].
    rewrite IH.
    + case_bool_decide as Hp; [|done]. exfalso. apply Hn. simpl.
      rewrite Hp. apply elem_of_cons. by left.
    + intros H. apply Hn. simpl. apply elem_of_cons. by right.
Qed.

Lemma handleSubmit_updates_witness :
  let st := mkState (js "Retro") (Some (noon + 90000)) [stale; release]
                    (Some (js "p1")) false in
  let st' := (handleSubmit submitAtNoon st).1 in
  (handleSubmit submitAtNoon st).2 = [ToastSuccess "Post updated successfully"]
  /\ input st' = [] /\ formTime st' = None /\ editingPostId st' = None
  /\ map id (posts st') = map id (posts st)
  /\ map color (posts st') = map color (posts st)
  /\ Forall2 (fun p p' =>
                if decide (id p = Some (js "p1"))
                then text p' = Some (input st) /\ time p' = Some (ISO (noon + 90000))
                     /\ notified p' = Some false
                else p' = p)
             (posts st) (posts st')
  /\ (Some (js "p1") ∉ map id (posts st) -> posts st' = posts st).
Proof.
  apply (handleSubmit_updates submitAtNoon
           (mkState (js "Retro") (Some (noon + 90000)) [stale; release]
                    (Some (js "p1")) false)
           (noon + 90000) (js "p1")).
  - simpl. intros H. inversion H as [|? ? Hc _]. vm_compute in Hc. discriminate.
  - reflexivity.
  - vm_compute. discriminate.
  - reflexivity.
  - discriminate.
Defined.

(** ** Editing *)

(** X12.  Opening a post in the form and submitting it as it is changes
    nothing but that post's flag, which is lowered, when the post has an
    id of its own and its time has not passed; when its time has passed
    the submission is rejected and the list left alone. *)
Theorem edit_and_resubmit env st p s t :
  p ∈ posts st -> OnlyOne p (posts st) ->
  text p = Some s -> ~ Forall (fun c => isWhiteSpace c = true) s ->
  time p = Some (ISO t) -> truthy (id p) = true ->
  exists st1,
    handleEdit p st = Some st1
    /\ (submitNow env <= t ->
        handleSubmit env st1
        = (mkState [] None
             (map (fun q => if decide (q = p) then withNotified false p else q)
                  (posts st))
             None (isLoading st),
           [ToastSuccess "Post updated successfully"]))
    /\ (t < submitNow env ->
        handleSubmit env st1
        = (st1, [ToastError "Please select a future date and time"])).
Proof.
  intros Hin Hone Hs Hws Ht Hid. unfold handleEdit, getTime. rewrite Hs, Ht.
  eexists. split; [done|]. split.
  - intros Hle. rewrite (handleSubmit_passes env _ t) by done. simpl.
    rewrite Hid. f_equal. f_equal. apply map_ext_in. intros q Hq.
    apply list_elem_of_In in Hq.
    case_bool_decide as Hq'; case_decide as Hqp.
    + subst q. unfold edited, withNotified. by rewrite Hs, Ht.
    + exfalso. by apply Hqp, Hone.
    + by subst q.
    + done.
  - intros Hlt. unfold handleSubmit. simpl.
    destruct (trim s) as [|c s'] eqn:Htr; [exfalso; by apply Hws, trim_nil|].
    simpl. apply Z.ltb_lt in Hlt. by rewrite Hlt.
Qed.

Lemma edit_and_resubmit_witness :
  exists st1,
    handleEdit release2 (mkState [] None [release2; stale] None false) = Some st1
    /\ (submitNow submitAtNoon <= noon + 600000 ->
        handleSubmit submitAtNoon st1
        = (mkState [] None
             (map (fun q => if decide (q = release2)
                            then withNotified false release2 else q)
                  [release2; stale])
             None false,
           [ToastSuccess "Post updated successfully"]))
    /\ (noon + 600000 < submitNow submitAtNoon ->
        handleSubmit submitAtNoon st1
        = (st1, [ToastError "Please select a future date and time"])).
Proof.
  apply (edit_and_resubmit submitAtNoon
           (mkState [] None [release2; stale] None false) release2
           (js "Retro") (noon + 600000)).
  - apply elem_of_cons. by left.
  - intros q Hq Hid.
    apply elem_of_cons in Hq as [->|Hq]; [done|].
    apply elem_of_cons in Hq as [->|Hq]; [discriminate Hid|].
    by apply elem_of_nil in Hq.
  - reflexivity.
  - simpl. intros H. inversion H as [|? ? Hc _]. vm_compute in Hc. discriminate.
  - reflexivity.
  - reflexivity.
Defined.

(** X13.  A post without an id, or with an empty one, cannot be edited:
    the form opens on it, but the submission finds no post under edit and
    adds a new post with a fresh id, the old one staying as it was. *)
Theorem edit_without_id_adds_a_post env st p s t :
  text p = Some s -> ~ Forall (fun c => isWhiteSpace c = true) s ->
  time p = Some (ISO t) -> submitNow env <= t ->
  truthy (id p) = false ->
  exists st1,
    handleEdit p st = Some st1
    /\ handleSubmit env st1
       = (mkState [] None
            (mkPost (Some (uuidv4 env)) (Some s) (Some (ISO t)) (Some false)
                    (Some (pickColor (randomColor env))) :: posts st)
            (id p) (isLoading st),
          [ToastSuccess "Post scheduled successfully"]).
Proof.
  intros Hs Hws Ht Hle Hid. unfold handleEdit, getTime. rewrite Hs, Ht.
  eexists. split; [done|].
  rewrite (handleSubmit_passes env _ t) by done. simpl. by rewrite Hid.
Qed.

Lemma edit_without_id_adds_a_post_witness :
  exists st1,
    handleEdit nameless (mkState [] None [nameless] None false) = Some st1
    /\ handleSubmit submitAtNoon st1
       = (mkState [] None
            (mkPost (Some (js "uuid-1")) (Some (js "No id")) (Some (ISO (noon + 90000)))
                    (Some false) (Some (pickColor 3)) :: [nameless])
            None false,
          [ToastSuccess "Post scheduled successfully"]).
Proof.
  apply (edit_without_id_adds_a_post submitAtNoon
           (mkState [] None [nameless] None false) nameless
           (js "No id") (noon + 90000)).
  - reflexivity.
  - simpl. intros H. inversion H as [|? ? Hc _]. vm_compute in Hc. discriminate.
  - reflexivity.
  - vm_compute. discriminate.
  - reflexivity.
Defined.

(** ** Deleting and clearing *)

(** X14.  Confirming a deletion sets the posts to those the toast was
    raised with, less every post with the id, in their order, whatever the
    posts are when the button is pressed; the form is left as it is.  For
    an id no post has, the list comes back whole and the toast still says
    the post was deleted. *)
Theorem confirmDelete_removes i st st' :
  let r := confirmDelete (handleDelete i st) st' in
  (forall q, q ∈ posts r.1 <-> q ∈ posts st /\ id q <> i)
  /\ posts r.1 `sublist_of` posts st
  /\ (i ∉ map id (posts st) -> posts r.1 = posts st)
  /\ r.2 = [ToastSuccess "Post deleted"]
  /\ input r.1 = input st' /\ formTime r.1 = formTime st'
  /\ editingPostId r.1 = editingPostId st'.
Proof.
  simpl. split; [|split; [|split; [|by repeat split]]].
  - intros q. rewrite list_elem_of_filter. tauto.
  - apply sublist_filter.
  - intros Hn. induction (posts st) as [|p l IH]; [done|].
    rewrite filter_cons. rewrite decide_True.
    + f_equal. apply IH. intros H. apply Hn. simpl. apply elem_of_cons. by right.
    + intros Heq. apply Hn. simpl. rewrite Heq. apply elem_of_cons. by left.
Qed.

(** X15.  Deleting the post that is open in the form does not end the
    edit: the next submission that passes the tests finds no post to
    change, leaves the list as the deletion left it and shows the success
    toast of an update. *)
Theorem submit_after_deleting_edited_post env st p s t :
  text p = Some s -> ~ Forall (fun c => isWhiteSpace c = true) s ->
  time p = Some (ISO t) -> submitNow env <= t -> truthy (id p) = true ->
  exists st1 st2,
    handleEdit p st = Some st1
    /\ st2 = (confirmDelete (handleDelete (id p) st1) st1).1
    /\ (p ∉ posts st2)
    /\ posts (handleSubmit env st2).1 = posts st2
    /\ (handleSubmit env st2).2 = [ToastSuccess "Post updated successfully"].
Proof.
  intros Hs Hws Ht Hle Hid. unfold handleEdit, getTime. rewrite Hs, Ht.
  eexists _, _. split; [done|]. split; [done|]. simpl. split; [|split].
  - intros H. by apply list_elem_of_filter in H as [? _].
  - rewrite (handleSubmit_passes env _ t) by done. simpl. rewrite Hid. simpl.
    induction (posts st) as [|q l IH]; [done|]. rewrite filter_cons.
    case_decide as Hq; [|done]. simpl. rewrite IH.
    by rewrite bool_decide_eq_false_2.
  - rewrite (handleSubmit_passes env _ t) by done. simpl. by rewrite Hid.
Qed.

Lemma submit_after_deleting_edited_post_witness :
  exists st1 st2,
    handleEdit release2 (mkState [] None [release2; stale] None false) = Some st1
    /\ st2 = (confirmDelete (handleDelete (id release2) st1) st1).1
    /\ (release2 ∉ posts st2)
    /\ posts (handleSubmit submitAtNoon st2).1 = posts st2
    /\ (handleSubmit submitAtNoon st2).2 = [ToastSuccess "Post updated successfully"].
Proof.
  apply (submit_after_deleting_edited_post submitAtNoon
           (mkState [] None [release2; stale] None false) release2
           (js "Retro") (noon + 600000)).
  - reflexivity.
  - simpl. intros H. inversion H as [|? ? Hc _]. vm_compute in Hc. discriminate.
  - reflexivity.
  - vm_compute. discriminate.
  - reflexivity.
Defined.

(** X16.  Clearing all leaves no post and removes the stored item; a
    reload then shows no post and no warning, whether it finds the item
    removed or the empty array the save effect has written since. *)
Theorem clearAll_then_reload env st :
  let r := confirmClearAll st in
  posts r.1.1 = [] /\ r.1.2 = None
  /\ r.2 = [ToastSuccess "All posts cleared"]
  /\ loadPosts env r.1.2 initialState = (setIsLoading false initialState, [])
  /\ loadPosts env (savePosts (posts r.1.1)) initialState
     = (setIsLoading false initialState, []).
Proof. by repeat split. Qed.

(** ** From the form to the reminder *)

(** X17.  A post made through the form gets its reminder: when the id
    [uuidv4()] gives is new to the list and to the ledger, and the
    interval ticks every thirty seconds from a moment at least a minute
    before the chosen time, one of the ticks announces the new post, if
    the posts are left alone till then. *)
Theorem scheduled_post_is_reminded (env : SubmitEnv) (st : State) (t : Z)
    (envs : list TickEnv) (shown : gset (option JsString)) (now0 : Z) :
  ~ Forall (fun c => isWhiteSpace c = true) (input st) ->
  formTime st = Some t -> submitNow env <= t ->
  truthy (editingPostId st) = false ->
  Some (uuidv4 env) ∉ map id (posts st) -> Some (uuidv4 env) ∉ shown ->
  (forall k e, envs !! k = Some e -> now e = now0 + 30000 * Z.of_nat k) ->
  60000 <= t - now0 < 60000 + 30000 * Z.of_nat (length envs) ->
  exists p,
    posts (handleSubmit env st).1 = p :: posts st
    /\ id p = Some (uuidv4 env) /\ text p = Some (input st)
    /\ time p = Some (ISO t)
    /\ p ∈ announced
            (out (runTicks envs (posts (handleSubmit env st).1) (startTick shown)).2).
Proof.
  intros Hws Ht Hle He Hfresh Hn Hreg Hw.
  rewrite (handleSubmit_passes env st t Hws Ht Hle), He. simpl.
  eexists. split; [done|]. split; [done|]. split; [done|]. split; [done|].
  eapply (regular_ticks_find envs _ (startTick shown) _ t now0); try done.
  - apply elem_of_cons. by left.
  - intros q Hq Hid. apply elem_of_cons in Hq as [->|Hq]; [done|].
    exfalso. apply Hfresh. simpl in Hid. rewrite <- Hid.
    apply list_elem_of_fmap. by exists q.
Qed.

Lemma scheduled_post_is_reminded_witness :
  exists p,
    posts (handleSubmit submitAtNoon
             (mkState (js "Retro") (Some (noon + 90000)) [stale] None false)).1
      = p :: [stale]
    /\ id p = Some (js "uuid-1") /\ text p = Some (js "Retro")
    /\ time p = Some (ISO (noon + 90000))
    /\ p ∈ announced
            (out (runTicks threeTicks
                    (posts (handleSubmit submitAtNoon
                       (mkState (js "Retro") (Some (noon + 90000)) [stale] None false)).1)
                    (startTick ∅)).2).
Proof.
  apply (scheduled_post_is_reminded submitAtNoon
           (mkState (js "Retro") (Some (noon + 90000)) [stale] None false)
           (noon + 90000) threeTicks ∅ noon).
  - simpl. intros H. inversion H as [|? ? Hc _]. vm_compute in Hc. discriminate.
  - reflexivity.
  - vm_compute. discriminate.
  - reflexivity.
  - simpl. intros H. apply elem_of_cons in H as [H|H]; [discriminate H|].
    by apply elem_of_nil in H.
  - apply not_elem_of_empty.
  - intros k e Hk.
    destruct k as [|[|[|k]]]; simpl in Hk; try discriminate;
      injection Hk as <-; vm_compute; reflexivity.
  - vm_compute. split; [discriminate|reflexivity].
Defined.

(** ** More on loading *)

Lemma filter_all {A} (P : A -> Prop) `{!forall x, Decision (P x)} (l : list A) :
  (forall x, x ∈ l -> P x) -> filter P l = l.
Proof.
  induction l as [|x l IH]; intros Hall; [done|].
  rewrite filter_cons_True by (apply Hall, elem_of_cons; by left).
  f_equal. apply IH. intros y Hy. apply Hall, elem_of_cons. by right.
Qed.

Lemma filter_none {A} (P : A -> Prop) `{!forall x, Decision (P x)} (l : list A) :
  (forall x, x ∈ l -> ~ P x) -> filter P l = [].
Proof.
  induction l as [|x l IH]; intros Hnone; [done|].
  rewrite filter_cons_False by (apply Hnone, elem_of_cons; by left).
  apply IH. intros y Hy. apply Hnone, elem_of_cons. by right.
Qed.

(** X18.  Over the stored values the model covers (nothing stored, the
    empty string, a text that is not JSON, JSON that is no array, and an
    array whose elements are null or carry fields of the declared types,
    a [time] that is present being a string), the load warns exactly in
    three cases: the text is not empty and is not JSON, it is JSON but no
    array, or it is an array with a null element.  It then leaves the
    posts as they are.  Nothing stored, the empty string and an array
    without a null element draw no warning; an element that is no object,
    a number say, counts as a record without fields and draws none
    either.  In every case the load ends the loading state and leaves the
    form alone. *)
Theorem loadPosts_warns_exactly env stored st :
  let r := loadPosts env stored st in
  isLoading r.1 = false
  /\ input r.1 = input st /\ formTime r.1 = formTime st
  /\ editingPostId r.1 = editingPostId st
  /\ (r.2 = loadWarning \/ r.2 = [])
  /\ (r.2 = loadWarning <->
      stored = Some Garbage \/ stored = Some NotArray
      \/ exists items, stored = Some (ArrayText items) /\ None ∈ items)
  /\ (r.2 = loadWarning -> posts r.1 = posts st).
Proof.
  unfold loadPosts. destruct stored as [[| | |items]|]; simpl.
  - repeat split; auto; try discriminate.
    intros [H|[H|(items & H & _)]]; discriminate.
  - repeat split; auto.
  - repeat split; auto.
  - unfold tryLoad. simpl.
    destruct (items_records_or_null items) as [[rs ->]|Hnull].
    + destruct (withColors_records env 0 rs) as (cs & -> & _). simpl.
      repeat split; auto; try discriminate.
      intros [H|[H|(items & [= <-] & Hn)]]; try discriminate.
      apply list_elem_of_fmap in Hn as (r & Hr & _). discriminate.
    + rewrite (withColors_null env 0 items Hnull). simpl.
      repeat split; auto. intros _. right. right. by exists items.
  - repeat split; auto; try discriminate.
    intros [H|[H|(items & H & _)]]; discriminate.
Qed.

Lemma tryLoad_clean env t ps p :
  tryLoad env t = inr ps -> p ∈ ps ->
  truthy (color p) = true /\ notified p = Some false.
Proof.
  unfold tryLoad. destruct (JSON_parse t) as [e|[|items]]; try discriminate.
  destruct (items_records_or_null items) as [[rs ->]|Hnull].
  - destruct (withColors_records env 0 rs) as (cs & -> & HF).
    intros [= <-] Hp. rewrite sortByTime_Permutation in Hp.
    apply list_elem_of_filter in Hp as [_ Hp].
    apply list_elem_of_lookup in Hp as [k Hk].
    destruct (Forall2_lookup_r _ _ _ _ _ HF Hk) as (r & _ & _ & Hn & Hc).
    split; [|done]. destruct (truthy (color r)) eqn:Hr; [by rewrite Hc|].
    destruct Hc as (c & Hc & ->). unfold COLORS in Hc.
    repeat (apply elem_of_cons in Hc as [->|Hc]; [done|]).
    by apply elem_of_nil in Hc.
  - by rewrite withColors_null.
Qed.

Lemma withColors_clean env k ps :
  (forall p, p ∈ ps -> truthy (color p) = true /\ notified p = Some false) ->
  withColors env k (map Some ps) = inr ps.
Proof.
  induction ps as [|p ps IH]; intros H; simpl; [done|].
  destruct (H p) as [Hc Hn]; [apply elem_of_cons; by left|].
  rewrite Hc, IH.
  - destruct p. simpl in *. by rewrite Hn.
  - intros q Hq. apply H, elem_of_cons. by right.
Qed.

Lemma sortByTime_Sorted_id l :
  Sorted (fun x y => timeKey x <= timeKey y) l -> sortByTime l = l.
Proof.
  induction 1 as [|a l Hs IH Hd]; simpl; [done|].
  rewrite IH. destruct Hd as [|b l' Hab]; simpl; [done|].
  apply Z.leb_le in Hab. by rewrite Hab.
Qed.

Lemma upcomingPosts_Sorted now l :
  Sorted (fun x y => timeKey x <= timeKey y) l ->
  Sorted (fun x y => timeKey x <= timeKey y) (upcomingPosts now l).
Proof.
  intros Hs. apply StronglySorted_Sorted.
  apply Sorted_StronglySorted in Hs; [|intros x y z; lia].
  unfold upcomingPosts. induction Hs as [|a l Hs IH Ha]; [constructor|].
  rewrite filter_cons. case_decide; [|done]. constructor; [done|].
  apply list.Forall_forall. intros x Hx. apply list_elem_of_filter in Hx as [_ Hx].
  by apply (proj1 (list.Forall_forall _ _) Ha).
Qed.

(** X19.  What the save effect writes after a load reads back as it is:
    a second load of it, at any moment and with any random draws, gives
    the posts of the first that are still upcoming, unchanged and in the
    same order, and never warns, whatever the first load found in the
    store; at a moment not after the first load it gives them all. *)
Theorem reload_after_save env1 env2 stored :
  let ps1 := posts (loadPosts env1 stored initialState).1 in
  loadPosts env2 (savePosts ps1) initialState
  = (setIsLoading false (setPosts (upcomingPosts (loadNow env2) ps1) initialState), [])
  /\ (loadNow env2 <= loadNow env1 -> upcomingPosts (loadNow env2) ps1 = ps1).
Proof.
  intros ps1.
  assert (Hclean : forall p, p ∈ ps1 ->
            truthy (color p) = true /\ notified p = Some false).
  { subst ps1. unfold loadPosts. destruct stored as [t|]; simpl;
      [|intros p H; by apply elem_of_nil in H].
    destruct (nonEmpty t); simpl; [|intros p H; by apply elem_of_nil in H].
    destruct (tryLoad env1 t) as [e|ps] eqn:Hl; simpl;
      [intros p H; by apply elem_of_nil in H|].
    intros p. by apply (tryLoad_clean env1 t). }
  assert (Hsorted : Sorted (fun x y => timeKey x <= timeKey y) ps1).
  { subst ps1. unfold loadPosts. destruct stored as [t|]; simpl; [|constructor].
    destruct (nonEmpty t); simpl; [|constructor].
    unfold tryLoad. destruct (JSON_parse t) as [e|[|items]]; simpl;
      try constructor.
    destruct (withColors env1 0 items); simpl; [constructor|].
    apply sortByTime_Sorted. }
  split.
  - unfold loadPosts, savePosts, JSON_stringify, tryLoad. simpl.
    rewrite (withColors_clean env2 0 ps1 Hclean). simpl.
    by rewrite (sortByTime_Sorted_id _ (upcomingPosts_Sorted _ _ Hsorted)).
  - intros Hle. unfold upcomingPosts. apply filter_all.
    intros p Hp. apply (loadPosts_after env1 stored) in Hp as (ms & Hp & ?).
    apply isAfter_spec. exists ms. unfold getTime. rewrite Hp. split; [done|lia].
Qed.

(** X20.  Whatever the store holds, the posts of a freshly mounted
    component after the load are in ascending order of time, all have the
    flag lowered and a colour, and all are in the upcoming view at the
    moment of the load, none in the past view. *)
Theorem loadPosts_postcondition env stored :
  let ps := posts (loadPosts env stored initialState).1 in
  Sorted (fun a b => timeKey a <= timeKey b) ps
  /\ (forall p, p ∈ ps -> notified p = Some false /\ truthy (color p) = true)
  /\ upcomingPosts (loadNow env) ps = ps
  /\ pastPosts (loadNow env) ps = [].
Proof.
  intros ps. split; [|split; [|split]].
  - subst ps. unfold loadPosts. destruct stored as [t|]; simpl; [|constructor].
    destruct (nonEmpty t); simpl; [|constructor].
    unfold tryLoad. destruct (JSON_parse t) as [e|[|items]]; simpl;
      try constructor.
    destruct (withColors env 0 items); simpl; [constructor|].
    apply sortByTime_Sorted.
  - subst ps. unfold loadPosts. destruct stored as [t|]; simpl;
      [|intros p H; by apply elem_of_nil in H].
    destruct (nonEmpty t); simpl; [|intros p H; by apply elem_of_nil in H].
    destruct (tryLoad env t) as [e|ps] eqn:Hl; simpl;
      [intros p H; by apply elem_of_nil in H|].
    intros p Hp. by destruct (tryLoad_clean env t ps p Hl Hp).
  - unfold upcomingPosts. apply filter_all. intros p Hp.
    apply (loadPosts_after env stored) in Hp as (ms & Hp & ?).
    apply isAfter_spec. exists ms. unfold getTime. by rewrite Hp.
  - unfold pastPosts. apply filter_none. intros p Hp.
    apply (loadPosts_after env stored) in Hp as (ms & Hp & ?).
    rewrite isNotAfter_spec. intros (t' & Ht' & ?).
    unfold getTime in Ht'. rewrite Hp in Ht'. injection Ht' as <-. lia.
Qed.

(** ** The older alarm loop *)

Lemma legacy_checkPost_skip env p w :
  bool_decide (minutesDiff env p = Some 1) && Legacy.notNotified p = false ->
  Legacy.checkPost env p w = (inr p, w).
Proof. intros H. unfold Legacy.checkPost. by rewrite H. Qed.

Lemma legacy_checkPost_ok env p w p' w' :
  Legacy.checkPost env p w = (inr p', w') ->
  (bool_decide (minutesDiff env p = Some 1) && Legacy.notNotified p = false
   /\ p' = p /\ w' = w)
  \/ (bool_decide (minutesDiff env p = Some 1) && Legacy.notNotified p = true
      /\ p' = withNotified true p).
Proof.
  unfold Legacy.checkPost.
  destruct (bool_decide _ && Legacy.notNotified p).
  - unfold bind. destruct (emit (ToastPlain p) w) as [[] w1].
    destruct (Legacy.ring env w1) as [[e|[]] w2]; unfold ret; intros [= <- <-];
      by right.
  - intros [= <- <-]. by left.
Qed.

Lemma legacy_mapPosts_ok env ps w ps' w' :
  Legacy.mapPosts env ps w = (inr ps', w') ->
  Forall2 (fun p p' => p' = p \/ (p' = withNotified true p
                                  /\ minutesDiff env p = Some 1
                                  /\ flag p = false)) ps ps'
  /\ forall w'', Legacy.mapPosts env ps' w'' = (inr ps', w'').
Proof.
  revert w ps' w'. induction ps as [|p ps IH]; intros w ps' w'; simpl.
  - intros [= <- <-]. split; [constructor|done].
  - unfold bind at 1.
    destruct (Legacy.checkPost env p w) as [[e|q] w1] eqn:Hp;
      [discriminate|].
    unfold bind. destruct (Legacy.mapPosts env ps w1) as [[e|qs] w2] eqn:Hps;
      [discriminate|].
    unfold ret. intros [= <- <-].
    destruct (IH _ _ _ Hps) as [HF Hagain].
    destruct (legacy_checkPost_ok _ _ _ _ _ Hp) as [(Hc & -> & ->)|(Hc & ->)].
    + split; [constructor; [by left|done]|].
      intros w''. simpl. unfold bind.
      by rewrite (legacy_checkPost_skip env p w'' Hc), Hagain.
    + split.
      * constructor; [|done]. right. split; [done|].
        apply andb_true_iff in Hc as [Hm Hn]. apply bool_decide_eq_true in Hm.
        split; [done|]. unfold Legacy.notNotified in Hn. unfold flag.
        by destruct (notified p) as [[|]|].
      * intros w''. simpl. unfold bind.
        by rewrite (legacy_flag_blocks env _ w''), Hagain.
Qed.

Lemma legacy_checkPost_ledger env p w :
  shownToastIds (Legacy.checkPost env p w).2 = shownToastIds w.
Proof.
  unfold Legacy.checkPost.
  destruct (bool_decide _ && Legacy.notNotified p); [|done].
  unfold Legacy.ring. unfold bind, emit, audio_play, promise_catch, ret. simpl.
  destruct (alarmSound env); simpl; [|done].
  destruct (visible env); simpl; [|done].
  by destruct (playPromise env _).
Qed.

Lemma legacy_mapPosts_ledger env ps w :
  shownToastIds (Legacy.mapPosts env ps w).2 = shownToastIds w.
Proof.
  revert w. induction ps as [|p ps IH]; intros w; simpl; [done|].
  unfold bind at 1. pose proof (legacy_checkPost_ledger env p w) as Hp.
  destruct (Legacy.checkPost env p w) as [[e|q] w1]; simpl in *; [done|].
  unfold bind. specialize (IH w1).
  destruct (Legacy.mapPosts env ps w1) as [[e|qs] w2]; simpl in *; congruence.
Qed.

(** X21.  In the older loop the flag alone keeps a reminder from
    repeating: when a tick has run through, it has changed nothing but
    flags, raised on posts that were one minute away with the flag down,
    and another tick on the posts it returned, at the same moment,
    returns them again and does nothing at all. *)
Theorem legacy_tick_twice env ps w ps' w' :
  Legacy.tick env ps w = (inr ps', w') ->
  Forall2 (fun p p' => p' = p \/ (p' = withNotified true p
                                  /\ minutesDiff env p = Some 1
                                  /\ flag p = false)) ps ps'
  /\ shownToastIds w' = shownToastIds w
  /\ forall w'', Legacy.tick env ps' w'' = (inr ps', w'').
Proof.
  intros H. destruct (legacy_mapPosts_ok env ps w ps' w' H) as [HF Hagain].
  split; [done|]. split; [|done].
  rewrite <- (legacy_mapPosts_ledger env ps w). unfold Legacy.tick in H.
  by rewrite H.
Qed.

Lemma legacy_tick_twice_witness :
  Forall2 (fun p p' => p' = p \/ (p' = withNotified true p
                                  /\ minutesDiff hiddenTab p = Some 1
                                  /\ flag p = false))
          [stale; release] [stale; withNotified true release]
  /\ shownToastIds
       (mkTick ∅ [ToastPlain release; AudioPause; AudioRewind; AudioLoad;
                  ConsoleWarn "🚫 Tab not visible. Alarm skipped."] [] 0)
     = shownToastIds (startTick ∅)
  /\ forall w'', Legacy.tick hiddenTab [stale; withNotified true release] w''
                 = (inr [stale; withNotified true release], w'').
Proof.
  apply (legacy_tick_twice hiddenTab [stale; release] (startTick ∅)).
  reflexivity.
Defined.

(** X22.  In the older loop a [play()] that returns no promise makes the
    callback throw once the toast is up and the sound started: the map is
    abandoned, [setPosts] is not reached and the flag stays down, so a
    second tick that still finds the post one minute away shows the toast
    again. *)
Theorem legacy_tick_repeats_without_promise env env' p l w :
  minutesDiff env p = Some 1 -> minutesDiff env' p = Some 1 ->
  Legacy.notNotified p = true ->
  alarmSound env = true -> visible env = true ->
  alarmSound env' = true -> visible env' = true ->
  (forall k, playPromise env k = NoPromise) ->
  (forall k, playPromise env' k = NoPromise) ->
  let ring := [ToastPlain p; AudioPause; AudioRewind; AudioLoad; AudioPlay] in
  Legacy.tick env (p :: l) w
  = (inl TypeError,
     mkTick (shownToastIds w) (out w ++ ring) (later w) (S (plays w)))
  /\ Legacy.tick env' (p :: l)
       (settle (mkTick (shownToastIds w) (out w ++ ring) (later w) (S (plays w))))
     = (inl TypeError,
        mkTick (shownToastIds w) ((out w ++ ring ++ later w) ++ ring) [] 1).
Proof.
  intros Hm Hm' Hn Ha Hv Ha' Hv' Hp Hp' ring.
  assert (Hone : forall e w0,
            minutesDiff e p = Some 1 -> alarmSound e = true -> visible e = true ->
            (forall k, playPromise e k = NoPromise) ->
            Legacy.tick e (p :: l) w0
            = (inl TypeError,
               mkTick (shownToastIds w0) (out w0 ++ ring) (later w0) (S (plays w0)))).
  { intros e w0 He Hae Hve Hpe. unfold Legacy.tick. simpl.
    unfold Legacy.checkPost, Legacy.ring. rewrite He, Hn, Hae, Hve.
    rewrite bool_decide_eq_true_2 by done. simpl.
    unfold bind, emit, audio_play, ret. simpl. rewrite Hpe.
    subst ring. by rewrite <- !app_assoc. }
  split; [by apply Hone|]. rewrite Hone by done. simpl.
  by rewrite <- !app_assoc.
Qed.

Lemma legacy_tick_repeats_without_promise_witness :
  let env := mkTickEnv noon true true (fun _ => NoPromise) in
  let env' := mkTickEnv (noon + 30000) true true (fun _ => NoPromise) in
  let ring := [ToastPlain release; AudioPause; AudioRewind; AudioLoad; AudioPlay] in
  Legacy.tick env [release; stale] (startTick ∅)
  = (inl TypeError, mkTick ∅ ([] ++ ring) [] 1)
  /\ Legacy.tick env' [release; stale] (settle (mkTick ∅ ([] ++ ring) [] 1))
     = (inl TypeError, mkTick ∅ (([] ++ ring ++ []) ++ ring) [] 1).
Proof.
  apply (legacy_tick_repeats_without_promise
           (mkTickEnv noon true true (fun _ => NoPromise))
           (mkTickEnv (noon + 30000) true true (fun _ => NoPromise))
           release [stale] (startTick ∅)); reflexivity.
Defined.

(** ** The effects of one tick *)

(** X23.  What one tick does to the outside is, for each post it
    announces and in the order of the list: the id into the ledger, then
    with an audio element pause and rewind, then the banner, then with an
    audio element one [play()].  So no sound is started without a banner,
    there are as many [play()] calls as banners, or none when the audio
    element is missing, and the ledger grows by the ids announced. *)
Theorem checkAlarms_trace env ps w :
  exists fired,
    fired `sublist_of` ps
    /\ out (checkAlarms env ps w).2 = out w ++ flat_map (reminderOut env) fired
    /\ announced (flat_map (reminderOut env) fired) = fired
    /\ plays (checkAlarms env ps w).2
       = (plays w + if alarmSound env then length fired else 0)%nat
    /\ (alarmSound env = false -> later (checkAlarms env ps w).2 = later w)
    /\ shownToastIds (checkAlarms env ps w).2
       = list_to_set (map id fired) ∪ shownToastIds w.
Proof.
  revert w. induction ps as [|p ps IH]; intros w.
  - rewrite checkAlarms_nil. exists []. simpl. rewrite app_nil_r.
    repeat split; try done.
    + by destruct (alarmSound env); rewrite Nat.add_0_r.
    + by rewrite union_empty_l_L.
  - rewrite checkAlarms_cons. tick_case env w p HD.
    + destruct (IH (fired env p w)) as (f & Hsub & Hout & Hann & Hpl & Hla & Hled).
      destruct (checkAlarms env ps (fired env p w)) as [ps' w'].
      cbn [fst snd fired out plays later shownToastIds] in *.
      exists (p :: f). split; [by apply sublist_skip|].
      change (flat_map (reminderOut env) (p :: f))
        with (reminderOut env p ++ flat_map (reminderOut env) f).
      split; [by rewrite Hout, <- app_assoc|].
      split; [by rewrite announced_app, announced_reminderOut, Hann|].
      split; [rewrite Hpl; destruct (alarmSound env); simpl; lia|].
      split.
      * intros Ha. rewrite (Hla Ha). unfold reminderLater. rewrite Ha.
        by rewrite app_nil_r.
      * rewrite Hled. simpl. apply set_eq. intros x.
        rewrite !elem_of_union. tauto.
    + destruct (IH w) as (f & Hsub & Hout & Hann & Hpl & Hla & Hled).
      destruct (checkAlarms env ps w) as [ps' w']. simpl in *.
      exists f. split; [by apply sublist_cons|]. done.
Qed.
